(** * Request contracts of the Desktop Commander tool surface

    The contracts are the [z.object] schemas of [schemas.ts].  They are
    embedded as terms of a small schema language whose interpreter follows
    the synchronous parser of zod 3 ([ZodType._parse],
    [ParseStatus.mergeObjectSync], [ParseStatus.mergeArray], [safeParse]).
    The Session Registry and the Output Reader the contracts front are
    not part of the sources; they are modelled from the specification.

    Definitions come first: JavaScript data, the zod fragment, the
    schemas, the words of the contract table, the registry.  The facts
    follow: what the parser accepts, the contracts, the registry. *)

From Stdlib Require Import ZArith List Bool.
From Stdlib Require Import Floats.SpecFloat.
From Stdlib Require Import Strings.Ascii.
From stdpp Require Import base option list strings gmap.

Set Warnings "-register-all".
Open Scope string_scope.
Open Scope list_scope.

(** ** JavaScript data *)

(** The data a contract is applied to.  A number is an IEEE 754 double, so
    [NaN] and the infinities are numbers too; an object is a finite map
    from property names to values, and a property may be present and hold
    [undefined].  Functions, symbols, dates and the prototype chain are
    not modelled. *)
Inductive value : Type :=
  | VUndefined
  | VNull
  | VBool (b : bool)
  | VNumber (x : spec_float)
  | VString (s : string)
  | VArray (elems : list value)
  | VObject (fields : gmap string value).

(** [data[key]]: reading a property that is not there gives [undefined]. *)
Definition prop (data : gmap string value) (key : string) : value :=
  default VUndefined (data !! key).

(** [key in data]. *)
Definition has_key (data : gmap string value) (key : string) : bool :=
  bool_decide (is_Some (data !! key)).

(** [Number.isNaN] and [Number.isFinite] on a double. *)
Definition isNaN (x : spec_float) : bool :=
  match x with S754_nan => true | _ => false end.

Definition isFinite (x : spec_float) : bool :=
  match x with S754_zero _ | S754_finite _ _ _ => true | _ => false end.

Module Zod.

(** ** The zod fragment used by [schemas.ts] *)

(** [ZodParsedType], restricted to the classes [value] can fall in. *)
Inductive ZodParsedType : Type :=
  | pt_string | pt_nan | pt_number | pt_boolean
  | pt_undefined | pt_null | pt_array | pt_object.

(** [getParsedType]: a [typeof] dispatch in which [NaN] is split from the
    other numbers, and arrays and [null] from the other objects. *)
Definition getParsedType (data : value) : ZodParsedType :=
  match data with
  | VUndefined => pt_undefined
  | VString _ => pt_string
  | VNumber x => if isNaN x then pt_nan else pt_number
  | VBool _ => pt_boolean
  | VArray _ => pt_array
  | VNull => pt_null
  | VObject _ => pt_object
  end.

Inductive PathSegment : Type :=
  | Key (k : string)
  | Index (i : nat).

Inductive ZodIssue : Type :=
  | invalid_type (expected received : ZodParsedType) (path : list PathSegment)
  | unrecognized_keys (keys : list string) (path : list PathSegment).

Inductive UnknownKeysParam : Type := passthrough | strict | strip.

Inductive ZodType : Type :=
  | ZodString
  | ZodNumber
  | ZodAny
  | ZodOptional (innerType : ZodType)
  | ZodArray (element : ZodType)
  | ZodRecord (valueType : ZodType)
  | ZodObject (shape : list (string * ZodType)) (unknownKeys : UnknownKeysParam).

(** What [_parse] returns: a status with the parsed value ([INVALID] is the
    aborted status and carries none).  The issues, which zod pushes on the
    shared context, are returned next to it. *)
Inductive ParseReturn : Type :=
  | OK (v : value)
  | DIRTY (v : value)
  | INVALID.

Record ParsePair : Type := mkPair {
  pair_key : string;
  pair_value : ParseReturn;
  alwaysSet : bool
}.

Definition is_undefined (v : value) : bool :=
  match v with VUndefined => true | _ => false end.

(** One turn of the loop of [mergeObjectSync]: the property is written
    unless its name is [__proto__], or its value is [undefined] and the
    pair is not [alwaysSet]. *)
Definition set_pair (final : gmap string value) (key : string) (v : value)
    (always : bool) : gmap string value :=
  if negb (String.eqb key "__proto__") && (negb (is_undefined v) || always)
  then <[key := v]> final else final.

(** [ParseStatus.mergeObjectSync]: the first aborted pair aborts the
    object, a dirty pair makes it dirty. *)
Fixpoint mergeObjectSync (dirty : bool) (pairs : list ParsePair)
    (final : gmap string value) : ParseReturn :=
  match pairs with
  | [] => if dirty then DIRTY (VObject final) else OK (VObject final)
  | p :: rest =>
      match pair_value p with
      | INVALID => INVALID
      | DIRTY v =>
          mergeObjectSync true rest (set_pair final (pair_key p) v (alwaysSet p))
      | OK v =>
          mergeObjectSync dirty rest (set_pair final (pair_key p) v (alwaysSet p))
      end
  end.

(** [ParseStatus.mergeArray]. *)
Fixpoint mergeArray (dirty : bool) (results : list ParseReturn)
    (arrayValue : list value) : ParseReturn :=
  match results with
  | [] => if dirty then DIRTY (VArray arrayValue) else OK (VArray arrayValue)
  | INVALID :: _ => INVALID
  | DIRTY v :: rest => mergeArray true rest (arrayValue ++ [v])
  | OK v :: rest => mergeArray dirty rest (arrayValue ++ [v])
  end.

(** The type check every [_parse] starts with. *)
Definition type_error (expected : ZodParsedType) (path : list PathSegment)
    (data : value) : ParseReturn * list ZodIssue :=
  (INVALID, [invalid_type expected (getParsedType data) path]).

(** The keys of [data] that the shape does not declare. *)
Definition extra_keys (shapeKeys : list string) (data : gmap string value)
    : list string :=
  filter (fun k => k ∉ shapeKeys) (map fst (map_to_list data)).

(** [_parse], with the issues it adds.  [path] is the path of [data] in the
    input.  The keys of an object are enumerated in the order of the map,
    not in insertion order; only the order of the issues of a record and
    of the keys of an [unrecognized_keys] issue depends on it. *)
Fixpoint _parse (t : ZodType) (path : list PathSegment) (data : value)
    {struct t} : ParseReturn * list ZodIssue :=
  match t with
  | ZodString =>
      match getParsedType data with
      | pt_string => (OK data, [])
      | _ => type_error pt_string path data
      end
  | ZodNumber =>
      match getParsedType data with
      | pt_number => (OK data, [])
      | _ => type_error pt_number path data
      end
  | ZodAny => (OK data, [])
  | ZodOptional innerType =>
      match getParsedType data with
      | pt_undefined => (OK VUndefined, [])
      | _ => _parse innerType path data
      end
  | ZodArray element =>
      match data with
      | VArray elems =>
          let results :=
            imap (fun i item => _parse element (path ++ [Index i]) item) elems in
          (mergeArray false (map fst results) [], concat (map snd results))
      | _ => type_error pt_array path data
      end
  | ZodRecord valueType =>
      match data with
      | VObject fields =>
          let results :=
            map (fun kv => (fst kv, _parse valueType (path ++ [Key (fst kv)]) (snd kv)))
                (map_to_list fields) in
          (mergeObjectSync false
             (map (fun r => mkPair (fst r) (fst (snd r)) true) results) ∅,
           concat (map (fun r => snd (snd r)) results))
      | _ => type_error pt_object path data
      end
  | ZodObject shape unknownKeys =>
      match data with
      | VObject fields =>
          let results :=
            map (fun '(key, keyValidator) =>
                   (key, _parse keyValidator (path ++ [Key key]) (prop fields key)))
                shape in
          let pairs :=
            map (fun r => mkPair (fst r) (fst (snd r)) (has_key fields (fst r)))
                results in
          let issues := concat (map (fun r => snd (snd r)) results) in
          let extraKeys := extra_keys (map fst shape) fields in
          match unknownKeys with
          | strip => (mergeObjectSync false pairs ∅, issues)
          | passthrough =>
              (mergeObjectSync false
                 (pairs ++ map (fun k => mkPair k (OK (prop fields k)) false) extraKeys)
                 ∅,
               issues)
          | strict =>
              match extraKeys with
              | [] => (mergeObjectSync false pairs ∅, issues)
              | _ => (mergeObjectSync true pairs ∅,
                      issues ++ [unrecognized_keys extraKeys path])
              end
          end
      | _ => type_error pt_object path data
      end
  end.

(** [safeParse]: success exactly when the status is valid. *)
Inductive SafeParseReturn : Type :=
  | SafeParseSuccess (data : value)
  | SafeParseError (issues : list ZodIssue).

Definition safeParse (t : ZodType) (data : value) : SafeParseReturn :=
  match _parse t [] data with
  | (OK v, _) => SafeParseSuccess v
  | (_, issues) => SafeParseError issues
  end.

Definition validates (t : ZodType) (data : value) : bool :=
  match safeParse t data with
  | SafeParseSuccess _ => true
  | SafeParseError _ => false
  end.

(** *** Vocabulary for the statements *)

Definition is_ok (r : ParseReturn) : bool :=
  match r with OK _ => true | _ => false end.

(** [accepts t path v]: parsing [v] at [path] ends with a valid status. *)
Definition accepts (t : ZodType) (path : list PathSegment) (v : value) : bool :=
  is_ok (fst (_parse t path v)).

(** [typeof v === "string"] and [typeof v === "number"]. *)
Definition is_string (v : value) : bool :=
  match v with VString _ => true | _ => false end.

Definition is_number (v : value) : bool :=
  match v with VNumber _ => true | _ => false end.

Definition is_nan (v : value) : bool :=
  match v with VNumber x => isNaN x | _ => false end.

(** The keys an object schema declares. *)
Definition declared (t : ZodType) : list string :=
  match t with ZodObject shape _ => map fst shape | _ => [] end.

(** The constructors as [schemas.ts] calls them. *)
Module z.
Definition string : ZodType := ZodString.
Definition number : ZodType := ZodNumber.
Definition any : ZodType := ZodAny.
Definition optional (t : ZodType) : ZodType := ZodOptional t.
Definition array (t : ZodType) : ZodType := ZodArray t.
Definition record (t : ZodType) : ZodType := ZodRecord t.
(** [z.object] builds an object schema that strips unknown keys. *)
Definition object (shape : list (String.string * ZodType)) : ZodType :=
  ZodObject shape strip.
End z.

End Zod.

(** ** [schemas.ts] *)

Module Schemas.
Import Zod.

(** Config tools schemas *)
Definition GetConfigArgsSchema : ZodType := z.object [].

Definition GetConfigValueArgsSchema : ZodType :=
  z.object [("key", z.string)].

Definition SetConfigValueArgsSchema : ZodType :=
  z.object [("key", z.string); ("value", z.any)].

Definition UpdateConfigArgsSchema : ZodType :=
  z.object [("config", z.record z.any)].

(** Terminal tools schemas *)
Definition ExecuteCommandArgsSchema : ZodType :=
  z.object [("command", z.string);
            ("timeout_ms", z.optional z.number);
            ("shell", z.optional z.string)].

Definition ReadOutputArgsSchema : ZodType := z.object [("pid", z.number)].

Definition ForceTerminateArgsSchema : ZodType := z.object [("pid", z.number)].

Definition ListSessionsArgsSchema : ZodType := z.object [].

Definition KillProcessArgsSchema : ZodType := z.object [("pid", z.number)].

Definition BlockCommandArgsSchema : ZodType := z.object [("command", z.string)].

Definition UnblockCommandArgsSchema : ZodType := z.object [("command", z.string)].

(** Filesystem tools schemas *)
Definition ReadFileArgsSchema : ZodType := z.object [("path", z.string)].

Definition ReadMultipleFilesArgsSchema : ZodType :=
  z.object [("paths", z.array z.string)].

Definition WriteFileArgsSchema : ZodType :=
  z.object [("path", z.string); ("content", z.string)].

Definition CreateDirectoryArgsSchema : ZodType := z.object [("path", z.string)].

Definition ListDirectoryArgsSchema : ZodType := z.object [("path", z.string)].

Definition MoveFileArgsSchema : ZodType :=
  z.object [("source", z.string); ("destination", z.string)].

Definition SearchFilesArgsSchema : ZodType :=
  z.object [("path", z.string); ("pattern", z.string)].

Definition GetFileInfoArgsSchema : ZodType := z.object [("path", z.string)].

(** Edit tools schemas *)
Definition EditBlockArgsSchema : ZodType := z.object [("blockContent", z.string)].

(** Every contract the file exports, in the order of the file. *)
Definition contracts : list ZodType :=
  [ GetConfigArgsSchema; GetConfigValueArgsSchema; SetConfigValueArgsSchema;
    UpdateConfigArgsSchema; ExecuteCommandArgsSchema; ReadOutputArgsSchema;
    ForceTerminateArgsSchema; ListSessionsArgsSchema; KillProcessArgsSchema;
    BlockCommandArgsSchema; UnblockCommandArgsSchema; ReadFileArgsSchema;
    ReadMultipleFilesArgsSchema; WriteFileArgsSchema; CreateDirectoryArgsSchema;
    ListDirectoryArgsSchema; MoveFileArgsSchema; SearchFilesArgsSchema;
    GetFileInfoArgsSchema; EditBlockArgsSchema ].

End Schemas.


(** ** The words of the contract table *)

Module Terms.

Definition string_typed (v : value) : Prop := exists s, v = VString s.
Definition number_typed (v : value) : Prop := exists x, v = VNumber x.
Definition number_not_nan (v : value) : Prop :=
  exists x, v = VNumber x /\ isNaN x = false.
Definition string_list (v : value) : Prop :=
  exists elems, v = VArray elems /\ Forall string_typed elems.

(** The object has the field, and the field's value is as [P] says. *)
Definition has_field (P : value -> Prop) (fields : gmap string value)
    (k : string) : Prop :=
  exists v, fields !! k = Some v /\ P v.

Definition absent (fields : gmap string value) (k : string) : Prop :=
  fields !! k = None.

(** Absent, or present and holding [undefined]. *)
Definition missing (fields : gmap string value) (k : string) : Prop :=
  fields !! k = None \/ fields !! k = Some VUndefined.

End Terms.

(** ** The Session Registry and the Output Reader *)

Module Registry.

(** Modelled from the spec: the [status] of a session (section 3); the
    session manager itself is not part of the sources. *)
Inductive Status : Type :=
  | running | completed | timedOut | terminated | failed.

(** Modelled from the spec: the error taxonomy of section 7. *)
Inductive Error : Type :=
  | InvalidArgument | CommandBlocked | NotFound
  | InvalidTransition | SpawnFailure | PermissionDenied.

Inductive Result (A : Type) : Type :=
  | Ok (a : A)
  | Err (e : Error).
Arguments Ok {A} a.
Arguments Err {A} e.

(** Modelled from the spec: the session handle of section 3, an
    operating-system process identifier paired with a generation. *)
Abbreviation SessionId := (N * N)%type.

(** Modelled from the spec: the session record of section 3. *)
Record Session : Type := mkSession {
  id : SessionId;
  command : string;
  shell : string;
  createdAt : N;
  status : Status;
  exitCode : option Z;
  outputBuffer : list Byte.byte;
  readCursor : nat;
  timeoutDeadline : option N
}.

(** Modelled from the spec: the registry of section 4.2, a map from
    handles to records, with the generation counter handles draw on. *)
Record Registry : Type := mkRegistry {
  sessions : gmap SessionId Session;
  generation : N
}.

Definition empty : Registry := mkRegistry ∅ 0.

(** Modelled from the spec: the terminal states of section 4.2. *)
Definition is_terminal (st : Status) : bool :=
  match st with running => false | _ => true end.

(** Modelled from the spec: the four edges of the state machine of
    section 4.2; no edge leaves a terminal state. *)
Definition reachable (from to : Status) : bool :=
  match from, to with
  | running, completed | running, failed
  | running, timedOut | running, terminated => true
  | _, _ => false
  end.

Definition set_session (r : Registry) (s : Session) : Registry :=
  mkRegistry (<[id s := s]> (sessions r)) (generation r).

(** Modelled from the spec: [create] of section 4.2.  The process
    identifier and the clock are handed in by the Execution Engine. *)
Definition create (pid now : N) (cmd sh : string) (timeout : option N)
    (r : Registry) : Result (SessionId * Registry) :=
  if String.eqb cmd "" then Err InvalidArgument
  else
    let sid := (pid, generation r) in
    let s := mkSession sid cmd sh now running None [] 0
               (option_map (N.add now) timeout) in
    Ok (sid, mkRegistry (<[sid := s]> (sessions r)) (N.succ (generation r))).

(** Modelled from the spec: [get] of section 4.2. *)
Definition get (sid : SessionId) (r : Registry) : Result Session :=
  match sessions r !! sid with
  | Some s => Ok s
  | None => Err NotFound
  end.

(** Modelled from the spec: [transition] of section 4.2. *)
Definition transition (sid : SessionId) (newStatus : Status)
    (code : option Z) (r : Registry) : Result Registry :=
  match sessions r !! sid with
  | None => Err NotFound
  | Some s =>
      if reachable (status s) newStatus
      then Ok (set_session r
                 (mkSession (id s) (command s) (shell s) (createdAt s)
                    newStatus code (outputBuffer s) (readCursor s)
                    (timeoutDeadline s)))
      else Err InvalidTransition
  end.

(** Modelled from the spec: [appendOutput] of section 4.2.  The flag of
    the result is [false] when the session is terminal and the chunk is
    dropped with a warning. *)
Definition appendOutput (sid : SessionId) (chunk : list Byte.byte)
    (r : Registry) : Result (bool * Registry) :=
  match sessions r !! sid with
  | None => Err NotFound
  | Some s =>
      if is_terminal (status s) then Ok (false, r)
      else Ok (true,
               set_session r
                 (mkSession (id s) (command s) (shell s) (createdAt s)
                    (status s) (exitCode s) (outputBuffer s ++ chunk)
                    (readCursor s) (timeoutDeadline s)))
  end.

(** Modelled from the spec: [read] of the Output Reader, section 4.4. *)
Definition read (sid : SessionId) (r : Registry)
    : Result (list Byte.byte * Status * Registry) :=
  match sessions r !! sid with
  | None => Err NotFound
  | Some s =>
      let chunk := drop (readCursor s) (outputBuffer s) in
      Ok (chunk, status s,
          set_session r
            (mkSession (id s) (command s) (shell s) (createdAt s)
               (status s) (exitCode s) (outputBuffer s)
               (readCursor s + length chunk) (timeoutDeadline s)))
  end.

(** The calls that reach the registry, and what each one answers. *)
Inductive Event : Type :=
  | Create (pid now : N) (cmd sh : string) (timeout : option N)
  | Transition (sid : SessionId) (newStatus : Status) (code : option Z)
  | AppendOutput (sid : SessionId) (chunk : list Byte.byte)
  | Read (sid : SessionId).

Inductive Response : Type :=
  | Created (sid : SessionId)
  | Moved
  | Appended
  | Dropped
  | Delivered (chunk : list Byte.byte) (st : Status)
  | Failed (e : Error).

Definition step (ev : Event) (r : Registry) : Registry * Response :=
  match ev with
  | Create pid now cmd sh timeout =>
      match create pid now cmd sh timeout r with
      | Ok (sid, r') => (r', Created sid)
      | Err e => (r, Failed e)
      end
  | Transition sid newStatus code =>
      match transition sid newStatus code r with
      | Ok r' => (r', Moved)
      | Err e => (r, Failed e)
      end
  | AppendOutput sid chunk =>
      match appendOutput sid chunk r with
      | Ok (true, r') => (r', Appended)
      | Ok (false, r') => (r', Dropped)
      | Err e => (r, Failed e)
      end
  | Read sid =>
      match read sid r with
      | Ok (chunk, st, r') => (r', Delivered chunk st)
      | Err e => (r, Failed e)
      end
  end.

(** An interleaving of calls, run in order; the log pairs each call with
    its answer. *)
Fixpoint run (evs : list Event) (r : Registry)
    : Registry * list (Event * Response) :=
  match evs with
  | [] => (r, [])
  | ev :: evs' =>
      let (r1, resp) := step ev r in
      let (r2, log) := run evs' r1 in
      (r2, (ev, resp) :: log)
  end.

Definition sid_eqb (a b : SessionId) : bool := bool_decide (a = b).

(** What the reads of [sid] returned, in order. *)
Definition delivered (sid : SessionId) (log : list (Event * Response))
    : list Byte.byte :=
  concat (map (fun er =>
                 match er with
                 | (Read sid', Delivered chunk _) =>
                     if sid_eqb sid' sid then chunk else []
                 | _ => []
                 end) log).

(** What the process of [sid] wrote into its buffer, in order. *)
Definition written (sid : SessionId) (log : list (Event * Response))
    : list Byte.byte :=
  concat (map (fun er =>
                 match er with
                 | (AppendOutput sid' chunk, Appended) =>
                     if sid_eqb sid' sid then chunk else []
                 | _ => []
                 end) log).

(** What the log says of a session the registry holds. *)
Definition session_ok (gen : N) (log : list (Event * Response))
    (sid : SessionId) (s : Session) : Prop :=
  id s = sid
  /\ (snd sid < gen)%N
  /\ outputBuffer s = written sid log
  /\ delivered sid log = take (readCursor s) (outputBuffer s)
  /\ readCursor s <= length (outputBuffer s).

(** A handle the registry does not hold has neither written nor read. *)
Definition unknown_ok (log : list (Event * Response)) (sid : SessionId) : Prop :=
  written sid log = [] /\ delivered sid log = [].

Definition consistent (r : Registry) (log : list (Event * Response)) : Prop :=
  forall sid,
    match sessions r !! sid with
    | Some s => session_ok (generation r) log sid s
    | None => unknown_ok log sid
    end.

(** What a terminal session keeps through later calls; only the read
    cursor may still move. *)
Definition frozen (s s' : Session) : Prop :=
  status s' = status s
  /\ exitCode s' = exitCode s
  /\ outputBuffer s' = outputBuffer s.

End Registry.

(** ** Kinds of validators *)

Module Shapes.
Import Zod.

(** A validator returns what it was given. *)
Definition transparent (t : ZodType) : Prop :=
  forall path v out, fst (_parse t path v) = OK out -> out = v.

(** The validators of [schemas.ts] other than [z.record]. *)
Definition plain (t : ZodType) : bool :=
  match t with
  | ZodString | ZodNumber | ZodAny => true
  | ZodOptional ZodString | ZodOptional ZodNumber | ZodOptional ZodAny => true
  | ZodArray ZodString => true
  | _ => false
  end.

Definition plain_shape (shape : list (string * ZodType)) : bool :=
  forallb (fun kt => plain (snd kt) && negb (String.eqb (fst kt) "__proto__"))
          shape.

(** The validators that raise at most one issue, at the field itself. *)
Definition simple (t : ZodType) : bool :=
  match t with
  | ZodString | ZodNumber | ZodAny => true
  | ZodOptional ZodString | ZodOptional ZodNumber | ZodOptional ZodAny => true
  | ZodRecord ZodAny => true
  | _ => false
  end.

Definition simple_shape (shape : list (string * ZodType)) : bool :=
  forallb (fun kt => simple (snd kt)) shape.

(** The type a simple validator asks for. *)
Definition expected_type (t : ZodType) : ZodParsedType :=
  match t with
  | ZodString | ZodOptional ZodString => pt_string
  | ZodNumber | ZodOptional ZodNumber => pt_number
  | ZodRecord _ => pt_object
  | _ => pt_undefined
  end.

(** The issues of the declared fields a simple shape turns down. *)
Definition offending (shape : list (string * ZodType))
    (fields : gmap string value) : list ZodIssue :=
  flat_map (fun kt =>
              if accepts (snd kt) [Key (fst kt)] (prop fields (fst kt)) then []
              else [invalid_type (expected_type (snd kt))
                      (getParsedType (prop fields (fst kt))) [Key (fst kt)]])
           shape.

(** What the loop of [mergeObjectSync] does to the result for a record
    entry. *)
Definition record_step (acc : gmap string value) (kv : string * value)
    : gmap string value :=
  if String.eqb (fst kv) "__proto__" then acc else <[fst kv := snd kv]> acc.

Definition object_typed (v : value) : Prop := exists m, v = VObject m.

(** The shape an object schema was built from. *)
Definition shape_of (t : ZodType) : list (string * ZodType) :=
  match t with ZodObject shape _ => shape | _ => [] end.

End Shapes.

(** ** [setup-claude-server.js] *)

Module Setup.

(** *** String methods *)

(** [s.startsWith(p)]. *)
Definition startsWith (s p : string) : bool := String.prefix p s.

(** [s.endsWith(p)]. *)
Definition endsWith (s p : string) : bool :=
  let n := String.length s in
  let m := String.length p in
  if (m <=? n)%nat then String.eqb (String.substring (n - m) m s) p else false.

(** [s.split(c)] for a separator [c] of one character. *)
Fixpoint split (c : Ascii.ascii) (s : string) : list string :=
  match s with
  | EmptyString => [EmptyString]
  | String a s' =>
      if Ascii.eqb a c then EmptyString :: split c s'
      else match split c s' with
           | [] => [String a EmptyString]
           | h :: t => String a h :: t
           end
  end.

(** [list.includes(value)], where [value] may be [undefined]. *)
Definition includes (l : list string) (value : option string) : bool :=
  match value with
  | Some v => bool_decide (v ∈ l)
  | None => false
  end.

(** A value in a template literal. *)
Definition interpolate (value : option string) : string :=
  match value with
  | Some v => v
  | None => "undefined"
  end.

(** *** Logging *)

(** What [logToFile] is called with; the time stamp it adds and the two
    sinks it writes to are left out. *)
Record LogEntry : Type := mkLog {
  message : string;
  isError : bool
}.

(** *** [parseSetupArgs] *)

Record SetupArgs : Type := mkSetupArgs {
  mode : option string;
  permission : option string;
  additionalArgs : list string
}.

Definition modes : list string := ["granular"; "grouped"; "unified"].
Definition permissions : list string := ["execute"; "all"; "none"].

(** The state of the loop: the three variables and the log so far. *)
Definition ParseState : Type := (SetupArgs * list LogEntry)%type.

Definition invalid_value (flag : string) (value : option string) : LogEntry :=
  mkLog (String.append "Warning: Invalid "
           (String.append flag
              (String.append " value '"
                 (String.append (interpolate value) "'. Ignoring."))))
        true.

(** The body of the loop over the arguments. *)
Definition parse_arg (st : ParseState) (arg : string) : ParseState :=
  let '(a, log) := st in
  if String.eqb arg "setup" then st
  else if startsWith arg "--mode=" then
    let value := split "="%char arg !! 1%nat in
    if includes modes value
    then (mkSetupArgs value (permission a) (additionalArgs a ++ [arg]), log)
    else (a, log ++ [invalid_value "--mode" value])
  else if startsWith arg "--permission=" then
    let value := split "="%char arg !! 1%nat in
    if includes permissions value
    then (mkSetupArgs (mode a) value (additionalArgs a ++ [arg]), log)
    else (a, log ++ [invalid_value "--permission" value])
  else st.

(** [parseSetupArgs], applied to [process.argv]; the second component is
    what it logs. *)
Definition parseSetupArgs (argv : list string) : ParseState :=
  foldl parse_arg (mkSetupArgs None None [], []) (drop 2 argv).

(** *** Reading the argument list flag by flag *)

(** The mode an argument sets, if the loop accepts it as a mode flag. *)
Definition mode_of (arg : string) : option string :=
  if String.eqb arg "setup" then None
  else if startsWith arg "--mode=" then
    let value := split "="%char arg !! 1%nat in
    if includes modes value then value else None
  else None.

(** The permission an argument sets, if the loop accepts it as a
    permission flag. *)
Definition permission_of (arg : string) : option string :=
  if String.eqb arg "setup" then None
  else if startsWith arg "--mode=" then None
  else if startsWith arg "--permission=" then
    let value := split "="%char arg !! 1%nat in
    if includes permissions value then value else None
  else None.

(** The argument is forwarded to the server. *)
Definition accepted (arg : string) : bool :=
  match mode_of arg, permission_of arg with
  | None, None => false
  | _, _ => true
  end.

(** The warning an argument draws, if it is a flag with a bad value. *)
Definition warning_of (arg : string) : option LogEntry :=
  if String.eqb arg "setup" then None
  else if startsWith arg "--mode=" then
    let value := split "="%char arg !! 1%nat in
    if includes modes value then None else Some (invalid_value "--mode" value)
  else if startsWith arg "--permission=" then
    let value := split "="%char arg !! 1%nat in
    if includes permissions value then None
    else Some (invalid_value "--permission" value)
  else None.

(** The later of two settings of a variable. *)
Definition later (old new : option string) : option string :=
  match new with
  | Some v => Some v
  | None => old
  end.

(** *** The configuration object *)

(** What a statement of the script ends with: a value, or a thrown
    error. *)
Inductive JsError : Type := TypeError | SyntaxError | SystemError.

Inductive Completion (A : Type) : Type :=
  | Normal (a : A)
  | Throw (e : JsError).
Arguments Normal {A} a.
Arguments Throw {A} e.

(** [ToBoolean]: what [!v] and [if (v)] test. *)
Definition truthy (v : value) : bool :=
  match v with
  | VUndefined | VNull => false
  | VBool b => b
  | VNumber (S754_zero _) | VNumber S754_nan => false
  | VNumber _ => true
  | VString s => negb (String.eqb s "")
  | VArray _ | VObject _ => true
  end.

(** [o.key], for the keys the script reads ([mcpServers],
    [desktopCommander]): neither an array index nor a member of a
    prototype, so that only an object can hold them. *)
Definition getProp (o : value) (key : string) : Completion value :=
  match o with
  | VUndefined | VNull => Throw TypeError
  | VObject m => Normal (prop m key)
  | _ => Normal VUndefined
  end.

(** [o.key = v] in strict mode (the script is a module), as
    [JSON.stringify] will see [o] afterwards: an array takes the
    property but does not serialise it, a primitive throws. *)
Definition setProp (o : value) (key : string) (v : value) : Completion value :=
  match o with
  | VObject m => Normal (VObject (<[key := v]> m))
  | VArray elems => Normal (VArray elems)
  | _ => Throw TypeError
  end.

(** [delete o.key]. *)
Definition deleteProp (o : value) (key : string) : value :=
  match o with
  | VObject m => VObject (delete key m)
  | _ => o
  end.

(** [o.key] is the object [v] that was changed in place. *)
Definition alias (o : value) (key : string) (v : value) : value :=
  match o with
  | VObject m => VObject (<[key := v]> m)
  | _ => o
  end.

Definition dquote : string := String (Ascii.ascii_of_nat 34) EmptyString.
Definition newline : string := String (Ascii.ascii_of_nat 10) EmptyString.

Definition found_old : LogEntry :=
  mkLog (String.append "Found old "
           (String.append dquote
              (String.append "desktopCommander"
                 (String.append dquote " installation. Removing it..."))))
        false.

(** Lines 131 to 143: [mcpServers] is initialised when it is falsy, the
    old [desktopCommander] entry is removed when it is truthy, and the
    server is stored under [desktop-commander].  The result is the log
    and the configuration as [JSON.stringify] will see it. *)
Definition updateConfig (serverConfig config : value)
    : list LogEntry * Completion value :=
  match getProp config "mcpServers" with
  | Throw e => ([], Throw e)
  | Normal s0 =>
      match (if truthy s0 then Normal config
             else setProp config "mcpServers" (VObject ∅)) with
      | Throw e => ([], Throw e)
      | Normal config1 =>
          let servers := if truthy s0 then s0 else VObject ∅ in
          match getProp servers "desktopCommander" with
          | Throw e => ([], Throw e)
          | Normal old =>
              let log := if truthy old then [found_old] else [] in
              let servers1 :=
                if truthy old then deleteProp servers "desktopCommander"
                else servers in
              match setProp servers1 "desktop-commander" serverConfig with
              | Throw e => (log, Throw e)
              | Normal servers2 =>
                  (log, Normal (alias config1 "mcpServers" servers2))
              end
          end
      end
  end.

(** The servers a configuration holds: the fields of [mcpServers] when
    it is an object, none otherwise. *)
Definition servers_of (v : value) : gmap string value :=
  match v with
  | VObject s => s
  | _ => ∅
  end.

(** [mcpServers] is falsy or an object: the cases in which the server
    ends up in the file. *)
Definition registers (v : value) : bool :=
  negb (truthy v) || match v with VObject _ => true | _ => false end.

(** The configuration can be updated without a throw. *)
Definition updatable (config : value) : bool :=
  match config with
  | VObject m =>
      negb (truthy (prop m "mcpServers"))
      || match prop m "mcpServers" with
         | VObject _ | VArray _ => true
         | _ => false
         end
  | VArray _ => true
  | _ => false
  end.

(** *** What the file holds *)

(** A number as [JSON.stringify] writes it: [NaN] and the infinities as
    [null], minus zero as [0]. *)
Definition jsonNumber (x : spec_float) : value :=
  match x with
  | S754_nan | S754_infinity _ => VNull
  | S754_zero _ => VNumber (S754_zero false)
  | S754_finite _ _ _ => VNumber x
  end.

(** The value of the text [JSON.stringify(v, null, 2)] writes, that is
    what [JSON.parse] reads back from the file: in an array [undefined]
    becomes [null], in an object a property holding [undefined] is left
    out.  The order of the keys in the text is not modelled. *)
Fixpoint serialised (v : value) : value :=
  match v with
  | VNumber x => jsonNumber x
  | VArray elems =>
      VArray (map (fun e => match serialised e with
                            | VUndefined => VNull
                            | e' => e'
                            end) elems)
  | VObject fields =>
      VObject (omap (fun e => match serialised e with
                              | VUndefined => None
                              | e' => Some e'
                              end) fields)
  | _ => v
  end.

(** *** The script *)

(** The default configuration of lines 87 to 97. *)
Definition defaultConfig (isWindows : bool) : value :=
  VObject {[ "serverConfig" :=
    if isWindows
    then VObject (<["command" := VString "cmd.exe"]>
                    {["args" := VArray [VString "/c"]]})
    else VObject (<["command" := VString "/bin/sh"]>
                    {["args" := VArray [VString "-c"]]}) ]}.

Definition npxPackage : string := "@wonderwhy-er/desktop-commander".

(** Lines 113 to 129.  [localEntry] is [join(__dirname, 'dist',
    'index.js')]. *)
Definition isNpx (url : string) : bool :=
  endsWith url "dist/setup-claude-server.js".

Definition serverArgs (url localEntry : string) (args : SetupArgs)
    : list string :=
  (if isNpx url then [npxPackage] else [localEntry]) ++ additionalArgs args.

Definition serverConfig (url localEntry : string) (args : SetupArgs) : value :=
  VObject (<["command" := VString (if isNpx url then "npx" else "node")]>
             {["args" := VArray (map VString (serverArgs url localEntry args))]}).

(** A string or [null] as a condition. *)
Definition given (o : option string) : bool :=
  match o with
  | Some s => negb (String.eqb s "")
  | None => false
  end.

(** The message of line 153. *)
Definition configured_with (args : SetupArgs) : string :=
  String.append "Server configured with "
    (String.append
       (if given (mode args)
        then String.append "mode=" (interpolate (mode args)) else "")
       (String.append
          (if given (mode args) && given (permission args) then " and " else "")
          (if given (permission args)
           then String.append "permission=" (interpolate (permission args))
           else ""))).

Definition usage : string :=
  String.append newline
    (String.append "To use the server:"
       (String.append newline
          (String.append "1. Restart Claude if it's currently running"
             (String.append newline
                (String.append "2. The server will be available as "
                   (String.append dquote
                      (String.append "desktop-commander"
                         (String.append dquote
                            " in Claude's MCP server list")))))))).

(** What a run of the script leaves behind: the log, the configuration
    the file holds once written, if it is written, and the exit code if
    the script exits. *)
Record Outcome : Type := mkOutcome {
  log : list LogEntry;
  written : option value;
  exitCode : option nat
}.

(** The [catch] clause. *)
Definition failure (describe : JsError -> string) (sofar : list LogEntry)
    (e : JsError) : Outcome :=
  mkOutcome
    (sofar ++ [mkLog (String.append "Error updating Claude configuration: "
                        (describe e)) true])
    None (Some 1%nat).

(** The [try] block of lines 103 to 161.  [configData] is what reading
    and parsing the file gives, [writeError] what writing it back
    throws, [describe] how an error prints. *)
Definition main (describe : JsError -> string) (argv : list string)
    (url localEntry claudeConfigPath : string)
    (configData : Completion value) (writeError : option JsError) : Outcome :=
  let '(args, log0) := parseSetupArgs argv in
  match configData with
  | Throw e => failure describe log0 e
  | Normal config =>
      match updateConfig (serverConfig url localEntry args) config with
      | (log1, Throw e) => failure describe (log0 ++ log1) e
      | (log1, Normal config') =>
          match writeError with
          | Some e => failure describe (log0 ++ log1) e
          | None =>
              mkOutcome
                (log0 ++ log1
                 ++ [mkLog "Successfully added MCP server to Claude configuration!" false;
                     mkLog (String.append "Configuration location: " claudeConfigPath)
                       false]
                 ++ (if given (mode args) || given (permission args)
                     then [mkLog (configured_with args) false] else [])
                 ++ [mkLog usage false])
                (Some (serialised config')) None
          end
      end
  end.

(** The two entries every run ends with one of. *)
Definition success : LogEntry :=
  mkLog "Successfully added MCP server to Claude configuration!" false.

Definition error_entry (describe : JsError -> string) (e : JsError) : LogEntry :=
  mkLog (String.append "Error updating Claude configuration: " (describe e)) true.

(** A way of printing errors, for the examples. *)
Definition show (e : JsError) : string :=
  match e with
  | TypeError => "TypeError"
  | SyntaxError => "SyntaxError"
  | SystemError => "Error"
  end.

End Setup.

(** ** What a contract accepts *)

Module ZodFacts.
Import Zod.

(** Case analysis on a value, down to the class of a number. *)
Ltac by_cases v := destruct v as [| | |[| | |]| | |]; reflexivity.

Lemma validates_accepts t v : validates t v = accepts t [] v.
Proof.
  unfold validates, safeParse, accepts.
  destruct (_parse t [] v) as [[w|w|] issues]; reflexivity.
Qed.

Lemma mergeObjectSync_is_ok dirty pairs final :
  is_ok (mergeObjectSync dirty pairs final)
  = negb dirty && forallb (fun p => is_ok (pair_value p)) pairs.
Proof.
  revert dirty final.
  induction pairs as [|p pairs IH]; intros dirty final; simpl.
  - destruct dirty; reflexivity.
  - destruct (pair_value p) as [v|v|]; simpl.
    + apply IH.
    + rewrite IH. simpl. now rewrite andb_false_r.
    + now rewrite andb_false_r.
Qed.

Lemma mergeArray_is_ok dirty results acc :
  is_ok (mergeArray dirty results acc) = negb dirty && forallb is_ok results.
Proof.
  revert dirty acc.
  induction results as [|r results IH]; intros dirty acc; simpl.
  - destruct dirty; reflexivity.
  - destruct r as [v|v|]; simpl.
    + apply IH.
    + rewrite IH. simpl. now rewrite andb_false_r.
    + now rewrite andb_false_r.
Qed.

(** An object schema in strip mode accepts an object exactly when every
    declared key's validator accepts what the object holds under the key. *)
Lemma accepts_object shape path fields :
  accepts (z.object shape) path (VObject fields)
  = forallb (fun kt => accepts (snd kt) (path ++ [Key (fst kt)]) (prop fields (fst kt)))
            shape.
Proof.
  unfold accepts, z.object. cbn [_parse fst].
  rewrite mergeObjectSync_is_ok. cbn [negb andb].
  induction shape as [|[k t] shape IH]; [reflexivity|].
  cbn [map forallb pair_value fst snd]. now rewrite IH.
Qed.

Lemma accepts_object_other shape mode path v :
  (forall fields, v <> VObject fields) ->
  accepts (ZodObject shape mode) path v = false.
Proof. intros H. destruct v; try reflexivity. now destruct (H fields). Qed.

Lemma accepts_string path v : accepts z.string path v = is_string v.
Proof. by_cases v. Qed.

Lemma accepts_number path v :
  accepts z.number path v = is_number v && negb (is_nan v).
Proof. by_cases v. Qed.

Lemma accepts_any path v : accepts z.any path v = true.
Proof. reflexivity. Qed.

Lemma accepts_optional t path v :
  accepts (z.optional t) path v = is_undefined v || accepts t path v.
Proof. by_cases v. Qed.

Lemma imap_string_is_ok (f : nat -> list PathSegment) (elems : list value) :
  forallb is_ok (map fst (imap (fun i item => _parse ZodString (f i) item) elems))
  = forallb is_string elems.
Proof.
  revert f. induction elems as [|e elems IH]; intros f; [reflexivity|].
  cbn [imap map forallb]. rewrite <- (IH (f ∘ S)).
  f_equal. by_cases e.
Qed.

Lemma accepts_array_string path v :
  accepts (z.array z.string) path v
  = match v with VArray elems => forallb is_string elems | _ => false end.
Proof.
  destruct v as [| | |x| |elems|]; try reflexivity.
  unfold accepts. cbn [z.array z.string _parse fst].
  rewrite mergeArray_is_ok. cbn [negb andb].
  apply (imap_string_is_ok (fun i => path ++ [Index i])).
Qed.

Lemma accepts_record_any path v :
  accepts (z.record z.any) path v
  = match v with VObject _ => true | _ => false end.
Proof.
  destruct v as [| | |x| | |fields]; try reflexivity.
  unfold accepts. cbn [z.record z.any _parse fst].
  rewrite mergeObjectSync_is_ok. cbn [negb andb].
  induction (map_to_list fields) as [|kv l IH]; [reflexivity|].
  cbn. exact IH.
Qed.

End ZodFacts.

Module Contracts.
Import Zod Schemas Terms ZodFacts.

Lemma has_field_prop (P : value -> Prop) fields k :
  ~ P VUndefined -> (has_field P fields k <-> P (prop fields k)).
Proof.
  intros HP. unfold has_field, prop.
  destruct (fields !! k) as [v|]; simpl; split.
  - intros (w & [= <-] & Hw). exact Hw.
  - intros Hv. eauto.
  - intros (w & [=] & _).
  - intros Hu. now destruct HP.
Qed.

Lemma missing_prop fields k : missing fields k <-> is_undefined (prop fields k) = true.
Proof.
  unfold missing, prop. destruct (fields !! k) as [v|]; simpl; split.
  - intros [[=]|[= ->]]. reflexivity.
  - destruct v; try discriminate. now right.
  - reflexivity.
  - now left.
Qed.

Lemma is_string_typed v : is_string v = true <-> string_typed v.
Proof.
  split.
  - destruct v; try discriminate. intros _. now eexists.
  - intros [s ->]. reflexivity.
Qed.

Lemma is_number_not_nan v :
  is_number v && negb (is_nan v) = true <-> number_not_nan v.
Proof.
  split.
  - destruct v as [| | |x| | |]; try discriminate. simpl.
    intros H. exists x. split; [reflexivity|]. now destruct (isNaN x).
  - intros (x & -> & Hx). simpl. now rewrite Hx.
Qed.

Lemma forallb_string_list elems :
  forallb is_string elems = true <-> Forall string_typed elems.
Proof.
  rewrite forallb_forall, Forall_forall.
  split; intros H x Hx.
  - apply is_string_typed, H. now apply list_elem_of_In.
  - apply is_string_typed, H. now apply list_elem_of_In.
Qed.

Lemma field_string fields k :
  is_string (prop fields k) = true <-> has_field string_typed fields k.
Proof.
  rewrite is_string_typed. symmetry. apply has_field_prop.
  intros [s [=]].
Qed.

Lemma field_number fields k :
  is_number (prop fields k) && negb (is_nan (prop fields k)) = true
  <-> has_field number_not_nan fields k.
Proof.
  rewrite is_number_not_nan. symmetry. apply has_field_prop.
  intros (x & [=] & _).
Qed.

Lemma field_string_list fields k :
  accepts (z.array z.string) [Key k] (prop fields k) = true
  <-> has_field string_list fields k.
Proof.
  rewrite accepts_array_string.
  rewrite (has_field_prop string_list) by (intros (l & [=] & _)).
  destruct (prop fields k) as [| | |x| |elems|];
    try (split; [discriminate | intros (l & [=] & _)]).
  split.
  - intros H. exists elems. split; [reflexivity|]. now apply forallb_string_list.
  - intros (l & [= ->] & H). now apply forallb_string_list.
Qed.

(** A contract with one required string field. *)
Lemma one_string_contract k fields :
  validates (z.object [(k, z.string)]) (VObject fields) = true
  <-> has_field string_typed fields k.
Proof.
  rewrite validates_accepts, accepts_object. cbn [forallb fst snd].
  rewrite accepts_string, andb_true_r. apply field_string.
Qed.

(** A contract with two required string fields. *)
Lemma two_string_contract k1 k2 fields :
  validates (z.object [(k1, z.string); (k2, z.string)]) (VObject fields) = true
  <-> has_field string_typed fields k1 /\ has_field string_typed fields k2.
Proof.
  rewrite validates_accepts, accepts_object. cbn [forallb fst snd].
  rewrite !accepts_string, andb_true_r, andb_true_iff.
  now rewrite !field_string.
Qed.

(** A contract with one required number field. *)
Lemma one_number_contract k fields :
  validates (z.object [(k, z.number)]) (VObject fields) = true
  <-> has_field number_not_nan fields k.
Proof.
  rewrite validates_accepts, accepts_object. cbn [forallb fst snd].
  rewrite accepts_number, andb_true_r. apply field_number.
Qed.

Lemma execute_contract fields :
  validates ExecuteCommandArgsSchema (VObject fields) = true
  <-> has_field string_typed fields "command"
      /\ (missing fields "timeout_ms" \/ has_field number_not_nan fields "timeout_ms")
      /\ (missing fields "shell" \/ has_field string_typed fields "shell").
Proof.
  unfold ExecuteCommandArgsSchema.
  rewrite validates_accepts, accepts_object. cbn [forallb fst snd].
  rewrite !accepts_optional, !accepts_string, accepts_number, andb_true_r.
  rewrite !andb_true_iff, !orb_true_iff.
  rewrite !field_string, field_number, !missing_prop. reflexivity.
Qed.

(** The result of a strip-mode object schema depends on the input only
    through the declared keys. *)
Lemma parse_object_agree shape path (f1 f2 : gmap string value) :
  Forall (fun k => f1 !! k = f2 !! k) (map fst shape) ->
  _parse (z.object shape) path (VObject f1)
  = _parse (z.object shape) path (VObject f2).
Proof.
  intros Hagree. unfold z.object. cbn [_parse].
  rewrite !map_map.
  f_equal; [f_equal|f_equal]; apply map_ext_Forall;
    rewrite Forall_map in Hagree;
    (eapply Forall_impl; [exact Hagree|]);
    intros [k t] Hk; cbn [fst snd] in *; unfold prop, has_key;
    now rewrite Hk.
Qed.

Lemma safeParse_object_agree shape (f1 f2 : gmap string value) :
  Forall (fun k => f1 !! k = f2 !! k) (map fst shape) ->
  safeParse (z.object shape) (VObject f1) = safeParse (z.object shape) (VObject f2).
Proof.
  intros H. unfold safeParse. now rewrite (parse_object_agree shape [] f1 f2 H).
Qed.

(** The object [mergeObjectSync] builds holds only keys of its pairs. *)
Lemma mergeObjectSync_keys dirty pairs final out :
  mergeObjectSync dirty pairs final = OK out ->
  exists o, out = VObject o /\
    forall k, is_Some (o !! k) ->
      is_Some (final !! k) \/ k ∈ map pair_key pairs.
Proof.
  revert dirty final.
  induction pairs as [|p pairs IH]; intros dirty final; cbn [mergeObjectSync].
  - destruct dirty; [discriminate|]. intros [= <-]. eauto.
  - destruct (pair_value p) as [v|v|]; [| |discriminate];
      intros H; apply IH in H as (o & -> & Ho);
      exists o; (split; [reflexivity|]);
      intros k Hk; cbn [map]; rewrite elem_of_cons;
      (destruct (Ho k Hk) as [Hin|Hin]; [|now right; right]);
      unfold set_pair in Hin;
      (destruct (_ && _); [|now left]);
      (destruct (decide (pair_key p = k)) as [->|Hne];
        [now right; left | rewrite lookup_insert_ne in Hin by done; now left]).
Qed.

Lemma strip_output_keys shape fields out :
  safeParse (z.object shape) (VObject fields) = SafeParseSuccess out ->
  exists o, out = VObject o /\ forall k, is_Some (o !! k) -> k ∈ map fst shape.
Proof.
  unfold safeParse, z.object. cbn [_parse].
  destruct (mergeObjectSync _ _ _) as [v|v|] eqn:Hm; try discriminate.
  intros [= <-]. apply mergeObjectSync_keys in Hm as (o & -> & Ho).
  exists o. split; [reflexivity|]. intros k Hk.
  destruct (Ho k Hk) as [Hin|Hin].
  - rewrite lookup_empty in Hin. now destruct Hin.
  - rewrite !map_map in Hin. cbn [pair_key fst] in Hin.
    erewrite map_ext in Hin; [exact Hin|]. now intros [k' t'].
Qed.

(** Every exported contract is a [z.object]. *)
Lemma contracts_are_objects :
  Forall (fun S => exists shape, S = z.object shape) contracts.
Proof. repeat constructor; eexists; reflexivity. Qed.

(** *** The contracts on concrete requests *)

Example execute_echo_hello :
  safeParse ExecuteCommandArgsSchema
    (VObject (<["command" := VString "echo hello"]>
                {["timeout_ms" := VNumber (S754_finite false 5000 0)]}))
  = SafeParseSuccess
      (VObject (<["command" := VString "echo hello"]>
                  {["timeout_ms" := VNumber (S754_finite false 5000 0)]})).
Proof. vm_compute. reflexivity. Qed.

Example execute_nan_timeout :
  safeParse ExecuteCommandArgsSchema
    (VObject (<["command" := VString "ls"]> {["timeout_ms" := VNumber S754_nan]}))
  = SafeParseError [invalid_type pt_number pt_nan [Key "timeout_ms"]].
Proof. vm_compute. reflexivity. Qed.

Example execute_null_shell_no_command :
  safeParse ExecuteCommandArgsSchema (VObject {["shell" := VNull]})
  = SafeParseError [invalid_type pt_string pt_undefined [Key "command"];
                    invalid_type pt_string pt_null [Key "shell"]].
Proof. vm_compute. reflexivity. Qed.

Example execute_array_input :
  safeParse ExecuteCommandArgsSchema (VArray [VString "ls"])
  = SafeParseError [invalid_type pt_object pt_array []].
Proof. reflexivity. Qed.

Example read_multiple_files_mixed :
  safeParse ReadMultipleFilesArgsSchema
    (VObject {["paths" := VArray [VString "a"; VNull; VString "b"]]})
  = SafeParseError [invalid_type pt_string pt_null [Key "paths"; Index 1]].
Proof. vm_compute. reflexivity. Qed.

Example infinite_pid :
  validates KillProcessArgsSchema
    (VObject {["pid" := VNumber (S754_infinity false)]}) = true.
Proof. vm_compute. reflexivity. Qed.

(** The same shape in strict mode turns an unknown key down; the exported
    contracts are not built that way. *)
Example strict_mode_unknown_key :
  safeParse (ZodObject [] strict) (VObject {["cwd" := VString "/tmp"]})
  = SafeParseError [unrecognized_keys ["cwd"] []]
  /\ safeParse GetConfigArgsSchema (VObject {["cwd" := VString "/tmp"]})
     = SafeParseSuccess (VObject ∅).
Proof. split; vm_compute; reflexivity. Qed.

(** *** The execute contract and the empty command *)

(** C1, as the specification words it: an execute request whose command
    is the empty string never passes the contract check.  The contract
    holds no such check: the request [{command: ""}] is accepted. *)
Lemma empty_command_is_accepted :
  ~ (forall fields : gmap string value,
       fields !! "command" = Some (VString "") ->
       validates ExecuteCommandArgsSchema (VObject fields) = false).
Proof.
  intros H. specialize (H {["command" := VString ""]} eq_refl).
  vm_compute in H. discriminate.
Qed.

(** C1, amended: the execute contract accepts every request whose command
    is a string, the empty string included, provided [timeout_ms] and
    [shell] are missing or well typed; no check on the content of
    [command] is applied. *)
Theorem execute_accepts_any_command_string (s : string) (fields : gmap string value) :
  (missing fields "timeout_ms" \/ has_field number_not_nan fields "timeout_ms") ->
  (missing fields "shell" \/ has_field string_typed fields "shell") ->
  fields !! "command" = Some (VString s) ->
  validates ExecuteCommandArgsSchema (VObject fields) = true.
Proof.
  intros Ht Hs Hc. apply execute_contract. repeat split; try assumption.
  exists (VString s). split; [assumption|]. now exists s.
Qed.

Lemma execute_accepts_any_command_string_witness :
  validates ExecuteCommandArgsSchema (VObject {["command" := VString ""]}) = true.
Proof.
  apply (execute_accepts_any_command_string "" {["command" := VString ""]}).
  - left. left. reflexivity.
  - left. left. reflexivity.
  - reflexivity.
Defined.

(** C2, as the specification words it: the execute contract accepts an
    object exactly when [command] is a string, [timeout_ms] is absent or
    a number and [shell] is absent or a string.  It fails at
    [{command: "ls", timeout_ms: NaN}]: [NaN] is a number, and
    [z.number()] turns it down. *)
Lemma execute_contract_rejects_nan :
  ~ (forall fields : gmap string value,
       validates ExecuteCommandArgsSchema (VObject fields) = true
       <-> has_field string_typed fields "command"
           /\ (absent fields "timeout_ms" \/ has_field number_typed fields "timeout_ms")
           /\ (absent fields "shell" \/ has_field string_typed fields "shell")).
Proof.
  intros H.
  specialize (H (<["command" := VString "ls"]> {["timeout_ms" := VNumber S754_nan]})).
  destruct H as [_ H].
  assert (Hv : validates ExecuteCommandArgsSchema
                 (VObject (<["command" := VString "ls"]>
                             {["timeout_ms" := VNumber S754_nan]})) = true).
  { apply H. split; [|split].
    - exists (VString "ls"). split; [reflexivity|]. now exists "ls".
    - right. exists (VNumber S754_nan). split; [reflexivity|]. now exists S754_nan.
    - left. reflexivity. }
  vm_compute in Hv. discriminate.
Qed.

(** C2, amended: the execute contract accepts an object exactly when
    [command] is a string, [timeout_ms] is missing (absent or [undefined])
    or a number other than [NaN], and [shell] is missing or a string. *)
Theorem execute_contract_accepts_iff (fields : gmap string value) :
  validates ExecuteCommandArgsSchema (VObject fields) = true
  <-> has_field string_typed fields "command"
      /\ (missing fields "timeout_ms" \/ has_field number_not_nan fields "timeout_ms")
      /\ (missing fields "shell" \/ has_field string_typed fields "shell").
Proof. exact (execute_contract fields). Qed.

(** *** The [pid] contracts *)

(** C3, as the specification words it: each [pid] contract accepts an
    object exactly when [pid] is a number.  It fails at [{pid: NaN}]. *)
Lemma pid_contracts_reject_nan :
  ~ (forall fields : gmap string value,
       (validates ReadOutputArgsSchema (VObject fields) = true
        <-> has_field number_typed fields "pid")
       /\ (validates ForceTerminateArgsSchema (VObject fields) = true
           <-> has_field number_typed fields "pid")
       /\ (validates KillProcessArgsSchema (VObject fields) = true
           <-> has_field number_typed fields "pid")).
Proof.
  intros H.
  destruct (H {["pid" := VNumber S754_nan]}) as [[_ Hro] _].
  assert (Hv : validates ReadOutputArgsSchema
                 (VObject {["pid" := VNumber S754_nan]}) = true).
  { apply Hro. exists (VNumber S754_nan). split; [reflexivity|]. now exists S754_nan. }
  vm_compute in Hv. discriminate.
Qed.

(** C3, amended: each of the read output, force terminate and kill
    process contracts accepts an object exactly when [pid] is a number
    other than [NaN]; nothing else is required or looked at. *)
Theorem pid_contracts_accept_iff (fields : gmap string value) :
  (validates ReadOutputArgsSchema (VObject fields) = true
   <-> has_field number_not_nan fields "pid")
  /\ (validates ForceTerminateArgsSchema (VObject fields) = true
      <-> has_field number_not_nan fields "pid")
  /\ (validates KillProcessArgsSchema (VObject fields) = true
      <-> has_field number_not_nan fields "pid").
Proof. repeat match goal with |- _ /\ _ => split end; apply one_number_contract. Qed.

(** *** The blocklist contracts *)

(** C4: each of the block command and unblock command contracts accepts
    an object exactly when [command] is a string. *)
Theorem block_contracts_accept_iff (fields : gmap string value) :
  (validates BlockCommandArgsSchema (VObject fields) = true
   <-> has_field string_typed fields "command")
  /\ (validates UnblockCommandArgsSchema (VObject fields) = true
      <-> has_field string_typed fields "command").
Proof. split; apply one_string_contract. Qed.

(** *** The filesystem contracts *)

(** C7: the filesystem contracts accept exactly a string [path] (read
    file, create directory, list directory, get file info), an array of
    strings [paths] (read multiple files), strings [path] and [content]
    (write file), strings [source] and [destination] (move file). *)
Theorem filesystem_contracts_accept_iff (fields : gmap string value) :
  (validates ReadFileArgsSchema (VObject fields) = true
   <-> has_field string_typed fields "path")
  /\ (validates CreateDirectoryArgsSchema (VObject fields) = true
      <-> has_field string_typed fields "path")
  /\ (validates ListDirectoryArgsSchema (VObject fields) = true
      <-> has_field string_typed fields "path")
  /\ (validates GetFileInfoArgsSchema (VObject fields) = true
      <-> has_field string_typed fields "path")
  /\ (validates ReadMultipleFilesArgsSchema (VObject fields) = true
      <-> has_field string_list fields "paths")
  /\ (validates WriteFileArgsSchema (VObject fields) = true
      <-> has_field string_typed fields "path"
          /\ has_field string_typed fields "content")
  /\ (validates MoveFileArgsSchema (VObject fields) = true
      <-> has_field string_typed fields "source"
          /\ has_field string_typed fields "destination").
Proof.
  repeat match goal with |- _ /\ _ => split end;
    try apply one_string_contract; try apply two_string_contract.
  unfold ReadMultipleFilesArgsSchema.
  rewrite validates_accepts, accepts_object. cbn [forallb fst snd].
  rewrite andb_true_r. apply field_string_list.
Qed.

(** *** Unknown keys *)

(** C8: every exported contract ignores the keys it does not declare.
    Adding fields [extra] under undeclared keys to an object changes
    neither whether it is accepted nor the parsed result, which holds
    declared keys only (the added fields are stripped); and the get
    config and list sessions contracts accept every object. *)
Theorem contracts_strip_unknown_keys (i : nat) (S : ZodType)
    (fields extra any : gmap string value) :
  contracts !! i = Some S ->
  Forall (fun k => extra !! k = None) (declared S) ->
  safeParse S (VObject (fields ∪ extra)) = safeParse S (VObject fields)
  /\ (forall out, safeParse S (VObject (fields ∪ extra)) = SafeParseSuccess out ->
        exists o, out = VObject o /\ forall k, is_Some (o !! k) -> k ∈ declared S)
  /\ safeParse GetConfigArgsSchema (VObject any) = SafeParseSuccess (VObject ∅)
  /\ safeParse ListSessionsArgsSchema (VObject any) = SafeParseSuccess (VObject ∅).
Proof.
  intros Hi Hextra.
  assert (HS : exists shape, S = z.object shape).
  { pose proof contracts_are_objects as Hall.
    rewrite Forall_forall in Hall. apply Hall.
    now apply list_elem_of_lookup_2 with i. }
  destruct HS as [shape ->]. cbn [declared z.object] in Hextra.
  split; [|split; [|split]].
  - apply safeParse_object_agree.
    eapply Forall_impl; [exact Hextra|].
    intros k Hk. cbn beta in Hk. now apply lookup_union_l.
  - intros out Hout. apply strip_output_keys in Hout. exact Hout.
  - reflexivity.
  - reflexivity.
Qed.

Lemma contracts_strip_unknown_keys_witness :
  safeParse ExecuteCommandArgsSchema
    (VObject ({["command" := VString "ls"]} ∪ {["cwd" := VString "/tmp"]}))
  = safeParse ExecuteCommandArgsSchema (VObject {["command" := VString "ls"]}).
Proof.
  apply (contracts_strip_unknown_keys 4 ExecuteCommandArgsSchema
           {["command" := VString "ls"]} {["cwd" := VString "/tmp"]} ∅).
  - reflexivity.
  - repeat constructor.
Defined.

(** *** Numbers *)

Lemma finite_not_nan x : isFinite x = true -> isNaN x = false.
Proof. now destruct x. Qed.

Lemma has_field_insert (P : value -> Prop) fields k v :
  P v -> has_field P (<[k := v]> fields) k.
Proof. intros H. exists v. split; [apply lookup_insert_eq|exact H]. Qed.

Lemma has_field_insert_ne (P : value -> Prop) fields k k' v :
  k <> k' -> has_field P (<[k := v]> fields) k' <-> has_field P fields k'.
Proof. intros H. unfold has_field. now rewrite lookup_insert_ne. Qed.

Lemma missing_insert_ne fields k k' v :
  k <> k' -> missing (<[k := v]> fields) k' <-> missing fields k'.
Proof. intros H. unfold missing. now rewrite lookup_insert_ne. Qed.

(** C9: a finite number, whatever its sign and whether or not it is an
    integer, passes as [timeout_ms] of an execute request and as [pid] of
    a read output, force terminate or kill process request. *)
Theorem finite_numbers_pass (x : spec_float) (c : string)
    (fields rest : gmap string value) :
  isFinite x = true ->
  fields !! "command" = Some (VString c) ->
  (missing fields "shell" \/ has_field string_typed fields "shell") ->
  validates ExecuteCommandArgsSchema
    (VObject (<["timeout_ms" := VNumber x]> fields)) = true
  /\ validates ReadOutputArgsSchema (VObject (<["pid" := VNumber x]> rest)) = true
  /\ validates ForceTerminateArgsSchema (VObject (<["pid" := VNumber x]> rest)) = true
  /\ validates KillProcessArgsSchema (VObject (<["pid" := VNumber x]> rest)) = true.
Proof.
  intros Hx Hc Hs. apply finite_not_nan in Hx.
  assert (Hn : number_not_nan (VNumber x)) by (exists x; now split).
  repeat match goal with |- _ /\ _ => split end;
    try (apply one_number_contract; now apply has_field_insert).
  apply execute_contract. split; [|split].
  - apply has_field_insert_ne; [done|].
    exists (VString c). split; [exact Hc|]. now exists c.
  - right. now apply has_field_insert.
  - rewrite missing_insert_ne, has_field_insert_ne by done. exact Hs.
Qed.

Lemma finite_numbers_pass_witness :
  validates ExecuteCommandArgsSchema
    (VObject (<["timeout_ms" := VNumber (S754_finite true 1 (-1))]>
                {["command" := VString "ls"]})) = true
  /\ validates ReadOutputArgsSchema
       (VObject (<["pid" := VNumber (S754_finite true 1 (-1))]> ∅)) = true
  /\ validates ForceTerminateArgsSchema
       (VObject (<["pid" := VNumber (S754_finite true 1 (-1))]> ∅)) = true
  /\ validates KillProcessArgsSchema
       (VObject (<["pid" := VNumber (S754_finite true 1 (-1))]> ∅)) = true.
Proof.
  apply (finite_numbers_pass (S754_finite true 1 (-1)) "ls"
           {["command" := VString "ls"]} ∅).
  - reflexivity.
  - reflexivity.
  - left. left. reflexivity.
Defined.

(** *** Configuration values *)

(** C10: the set config value contract constrains the key and nothing
    else.  A request is accepted exactly when [key] holds a string,
    whatever is under [value] and whether or not it is there.  With any
    [v] under [value], a string [key] gives a success in which [v] comes
    out as it went in, and any other [key], or none, gives the single
    issue at [key]. *)
Theorem set_config_value_unconstrained (v : value)
    (fields : gmap string value) :
  (validates SetConfigValueArgsSchema (VObject fields) = true
   <-> has_field string_typed fields "key")
  /\ (validates SetConfigValueArgsSchema (VObject (<["value" := v]> fields)) = true
      <-> has_field string_typed fields "key")
  /\ safeParse SetConfigValueArgsSchema (VObject (<["value" := v]> fields))
     = match fields !! "key" with
       | Some (VString k) =>
           SafeParseSuccess (VObject (<["value" := v]> {["key" := VString k]}))
       | _ =>
           SafeParseError
             [invalid_type pt_string (getParsedType (prop fields "key"))
                [Key "key"]]
       end.
Proof.
  assert (Hiff : forall f : gmap string value,
            validates SetConfigValueArgsSchema (VObject f) = true
            <-> has_field string_typed f "key").
  { intros f. unfold SetConfigValueArgsSchema.
    rewrite validates_accepts, accepts_object. cbn [forallb fst snd].
    rewrite accepts_string, accepts_any, !andb_true_r. apply field_string. }
  split; [apply Hiff|]. split.
  - rewrite Hiff. now apply has_field_insert_ne.
  - unfold safeParse, SetConfigValueArgsSchema, z.object.
    cbn [_parse z.string z.any map fst snd].
    unfold has_key, prop.
    rewrite lookup_insert_eq, lookup_insert_ne by done.
    destruct (fields !! "key") as [[| |b|[| | |]|k|elems|m]|];
      cbn [default getParsedType isNaN type_error concat app fst snd
           pair_key pair_value alwaysSet mergeObjectSync];
      try reflexivity.
    rewrite bool_decide_eq_true_2 by eauto.
    unfold set_pair. rewrite orb_true_r. cbn. reflexivity.
Qed.

End Contracts.

Module RegistryFacts.
Import Registry.

(** *** The registry on a concrete session *)

Example echo_hello_session :
  snd (run [Create 42 0 "echo hello" "/bin/sh" (Some 5000%N);
            AppendOutput (42, 0)%N [Byte.x68; Byte.x69];
            Read (42, 0)%N;
            Transition (42, 0)%N completed (Some 0%Z);
            AppendOutput (42, 0)%N [Byte.x21];
            Read (42, 0)%N;
            Transition (42, 0)%N terminated None;
            Read (7, 3)%N;
            Create 43 9 "" "/bin/sh" None] empty)
  = [(Create 42 0 "echo hello" "/bin/sh" (Some 5000%N), Created (42, 0)%N);
     (AppendOutput (42, 0)%N [Byte.x68; Byte.x69], Appended);
     (Read (42, 0)%N, Delivered [Byte.x68; Byte.x69] running);
     (Transition (42, 0)%N completed (Some 0%Z), Moved);
     (AppendOutput (42, 0)%N [Byte.x21], Dropped);
     (Read (42, 0)%N, Delivered [] completed);
     (Transition (42, 0)%N terminated None, Failed InvalidTransition);
     (Read (7, 3)%N, Failed NotFound);
     (Create 43 9 "" "/bin/sh" None, Failed InvalidArgument)].
Proof. vm_compute. reflexivity. Qed.

Lemma sid_eqb_refl sid : sid_eqb sid sid = true.
Proof. unfold sid_eqb. now apply bool_decide_eq_true_2. Qed.

Lemma sid_eqb_ne a b : a <> b -> sid_eqb a b = false.
Proof. intros H. unfold sid_eqb. now apply bool_decide_eq_false_2. Qed.

Lemma delivered_snoc sid log ev resp :
  delivered sid (log ++ [(ev, resp)])
  = delivered sid log ++ delivered sid [(ev, resp)].
Proof. unfold delivered. now rewrite map_app, concat_app. Qed.

Lemma written_snoc sid log ev resp :
  written sid (log ++ [(ev, resp)])
  = written sid log ++ written sid [(ev, resp)].
Proof. unfold written. now rewrite map_app, concat_app. Qed.

Lemma delivered_read sid chunk st :
  delivered sid [(Read sid, Delivered chunk st)] = chunk.
Proof. unfold delivered. cbn. now rewrite sid_eqb_refl, app_nil_r. Qed.

Lemma written_append sid chunk :
  written sid [(AppendOutput sid chunk, Appended)] = chunk.
Proof. unfold written. cbn. now rewrite sid_eqb_refl, app_nil_r. Qed.

Lemma delivered_other sid ev resp :
  (forall chunk st, (ev, resp) <> (Read sid, Delivered chunk st)) ->
  delivered sid [(ev, resp)] = [].
Proof.
  intros H. unfold delivered. cbn.
  destruct ev as [| | |sid']; try reflexivity.
  destruct resp as [| | | |chunk st|]; try reflexivity.
  rewrite sid_eqb_ne; [reflexivity|]. intros ->. now destruct (H chunk st).
Qed.

Lemma written_other sid ev resp :
  (forall chunk, (ev, resp) <> (AppendOutput sid chunk, Appended)) ->
  written sid [(ev, resp)] = [].
Proof.
  intros H. unfold written. cbn.
  destruct ev as [| |sid' chunk|]; try reflexivity.
  destruct resp; try reflexivity.
  rewrite sid_eqb_ne; [reflexivity|]. intros ->. now destruct (H chunk).
Qed.

(** A call that neither appends to nor reads [sid] leaves what the log
    says of [sid] as it was. *)
Lemma session_ok_snoc gen gen' log sid s ev resp :
  (gen <= gen')%N ->
  (forall chunk st, (ev, resp) <> (Read sid, Delivered chunk st)) ->
  (forall chunk, (ev, resp) <> (AppendOutput sid chunk, Appended)) ->
  session_ok gen log sid s ->
  session_ok gen' (log ++ [(ev, resp)]) sid s.
Proof.
  intros Hgen Hr Hw (Hid & Hlt & Hbuf & Hdel & Hcur).
  unfold session_ok.
  rewrite written_snoc, delivered_snoc.
  rewrite (written_other _ _ _ Hw), (delivered_other _ _ _ Hr), !app_nil_r.
  repeat split; try assumption. lia.
Qed.

Lemma unknown_ok_snoc log sid ev resp :
  (forall chunk st, (ev, resp) <> (Read sid, Delivered chunk st)) ->
  (forall chunk, (ev, resp) <> (AppendOutput sid chunk, Appended)) ->
  unknown_ok log sid ->
  unknown_ok (log ++ [(ev, resp)]) sid.
Proof.
  intros Hr Hw [Hwr Hdel]. unfold unknown_ok.
  rewrite written_snoc, delivered_snoc.
  rewrite (written_other _ _ _ Hw), (delivered_other _ _ _ Hr), !app_nil_r.
  now split.
Qed.

(** A call that changes no session and is neither a successful append
    nor a successful read keeps the registry consistent with the log. *)
Lemma consistent_snoc_idle r log ev resp :
  (forall sid chunk st, (ev, resp) <> (Read sid, Delivered chunk st)) ->
  (forall sid chunk, (ev, resp) <> (AppendOutput sid chunk, Appended)) ->
  consistent r log ->
  consistent r (log ++ [(ev, resp)]).
Proof.
  intros Hr Hw Hc sid. specialize (Hc sid).
  destruct (sessions r !! sid) as [s|].
  - apply session_ok_snoc with (generation r); [lia|auto..].
  - apply unknown_ok_snoc; auto.
Qed.

(** Rewrites the log lemmas for a call that does not touch the handle. *)
Ltac idle_log :=
  rewrite ?written_snoc, ?delivered_snoc;
  rewrite ?written_other, ?delivered_other by congruence;
  rewrite ?app_nil_r.

Lemma create_consistent r log pid now cmd sh timeout sid r' :
  consistent r log ->
  create pid now cmd sh timeout r = Ok (sid, r') ->
  consistent r' (log ++ [(Create pid now cmd sh timeout, Created sid)]).
Proof.
  intros Hc. unfold create.
  destruct (String.eqb cmd ""); [discriminate|].
  intros [= <- <-] sid'. cbn [sessions generation].
  pose proof (Hc sid') as Hsid'.
  destruct (decide (sid' = (pid, generation r))) as [->|Hne].
  - rewrite lookup_insert_eq.
    destruct (sessions r !! (pid, generation r)) as [s|].
    + destruct Hsid' as (_ & Hlt & _). cbn in Hlt. lia.
    + destruct Hsid' as [Hw Hd].
      unfold session_ok. cbn [id outputBuffer readCursor snd length take].
      idle_log. rewrite Hw, Hd. repeat split; lia.
  - rewrite lookup_insert_ne by congruence.
    destruct (sessions r !! sid') as [s|].
    + apply session_ok_snoc with (generation r); [lia|congruence|congruence|exact Hsid'].
    + apply unknown_ok_snoc; [congruence|congruence|exact Hsid'].
Qed.

Lemma transition_consistent r log sid newStatus code r' :
  consistent r log ->
  transition sid newStatus code r = Ok r' ->
  consistent r' (log ++ [(Transition sid newStatus code, Moved)]).
Proof.
  intros Hc. unfold transition.
  pose proof (Hc sid) as Hsid.
  destruct (sessions r !! sid) as [s|]; [|discriminate].
  destruct (reachable (status s) newStatus); [|discriminate].
  intros [= <-] sid'. unfold set_session. cbn [sessions generation id].
  destruct Hsid as (Hid & Hlt & Hbuf & Hdel & Hcur). rewrite Hid.
  destruct (decide (sid' = sid)) as [->|Hne].
  - rewrite lookup_insert_eq. unfold session_ok.
    cbn [id outputBuffer readCursor]. idle_log. repeat split; assumption.
  - rewrite lookup_insert_ne by congruence.
    pose proof (Hc sid') as Hsid'.
    destruct (sessions r !! sid') as [s'|].
    + apply session_ok_snoc with (generation r); [lia|congruence|congruence|exact Hsid'].
    + apply unknown_ok_snoc; [congruence|congruence|exact Hsid'].
Qed.

Lemma appendOutput_consistent r log sid chunk r' :
  consistent r log ->
  appendOutput sid chunk r = Ok (true, r') ->
  consistent r' (log ++ [(AppendOutput sid chunk, Appended)]).
Proof.
  intros Hc. unfold appendOutput.
  pose proof (Hc sid) as Hsid.
  destruct (sessions r !! sid) as [s|]; [|discriminate].
  destruct (is_terminal (status s)); [discriminate|].
  intros [= <-] sid'. unfold set_session. cbn [sessions generation id].
  destruct Hsid as (Hid & Hlt & Hbuf & Hdel & Hcur). rewrite Hid.
  destruct (decide (sid' = sid)) as [->|Hne].
  - rewrite lookup_insert_eq. unfold session_ok.
    cbn [id outputBuffer readCursor].
    rewrite written_snoc, written_append. idle_log.
    rewrite length_app, take_app_le by exact Hcur.
    repeat split; try assumption; [now rewrite Hbuf | lia].
  - rewrite lookup_insert_ne by congruence.
    pose proof (Hc sid') as Hsid'.
    destruct (sessions r !! sid') as [s'|].
    + apply session_ok_snoc with (generation r); [lia|congruence|congruence|exact Hsid'].
    + apply unknown_ok_snoc; [congruence|congruence|exact Hsid'].
Qed.

Lemma read_consistent r log sid chunk st r' :
  consistent r log ->
  read sid r = Ok (chunk, st, r') ->
  consistent r' (log ++ [(Read sid, Delivered chunk st)]).
Proof.
  intros Hc. unfold read.
  pose proof (Hc sid) as Hsid.
  destruct (sessions r !! sid) as [s|]; [|discriminate].
  intros [= <- <- <-] sid'. unfold set_session. cbn [sessions generation id].
  destruct Hsid as (Hid & Hlt & Hbuf & Hdel & Hcur). rewrite Hid.
  destruct (decide (sid' = sid)) as [->|Hne].
  - rewrite lookup_insert_eq. unfold session_ok.
    cbn [id outputBuffer readCursor].
    rewrite delivered_snoc, delivered_read. idle_log.
    rewrite Hdel, take_drop, length_drop.
    rewrite take_ge by lia.
    repeat split; try assumption; lia.
  - rewrite lookup_insert_ne by congruence.
    pose proof (Hc sid') as Hsid'.
    destruct (sessions r !! sid') as [s'|].
    + apply session_ok_snoc with (generation r); [lia|congruence|congruence|exact Hsid'].
    + apply unknown_ok_snoc; [congruence|congruence|exact Hsid'].
Qed.

Lemma step_consistent ev r log :
  consistent r log ->
  consistent (fst (step ev r)) (log ++ [(ev, snd (step ev r))]).
Proof.
  intros Hc. destruct ev as [pid now cmd sh timeout|sid st code|sid chunk|sid];
    cbn [step].
  - destruct (create pid now cmd sh timeout r) as [[sid r']|e] eqn:E; cbn [fst snd].
    + eapply create_consistent; eassumption.
    + apply consistent_snoc_idle; [congruence|congruence|exact Hc].
  - destruct (transition sid st code r) as [r'|e] eqn:E; cbn [fst snd].
    + eapply transition_consistent; eassumption.
    + apply consistent_snoc_idle; [congruence|congruence|exact Hc].
  - destruct (appendOutput sid chunk r) as [[[] r']|e] eqn:E; cbn [fst snd].
    + eapply appendOutput_consistent; eassumption.
    + assert (r' = r) as ->.
      { unfold appendOutput in E. destruct (sessions r !! sid) as [s|]; [|discriminate].
        destruct (is_terminal (status s)); congruence. }
      apply consistent_snoc_idle; [congruence|congruence|exact Hc].
    + apply consistent_snoc_idle; [congruence|congruence|exact Hc].
  - destruct (read sid r) as [[[chunk st] r']|e] eqn:E; cbn [fst snd].
    + eapply read_consistent; eassumption.
    + apply consistent_snoc_idle; [congruence|congruence|exact Hc].
Qed.

Lemma run_consistent evs r log :
  consistent r log ->
  consistent (fst (run evs r)) (log ++ snd (run evs r)).
Proof.
  revert r log. induction evs as [|ev evs IH]; intros r log Hc; cbn [run].
  - cbn [fst snd]. now rewrite app_nil_r.
  - pose proof (step_consistent ev r log Hc) as Hs.
    destruct (step ev r) as [r1 resp]. cbn [fst snd] in Hs.
    specialize (IH r1 _ Hs).
    destruct (run evs r1) as [r2 log']. cbn [fst snd] in *.
    now rewrite <- app_assoc in IH.
Qed.

Lemma empty_consistent : consistent empty [].
Proof. intros sid. cbn. rewrite lookup_empty. now split. Qed.

Lemma reachable_terminal from to :
  is_terminal from = true -> reachable from to = false.
Proof. now destruct from, to. Qed.

Lemma reachable_running to : reachable running to = is_terminal to.
Proof. now destruct to. Qed.

Lemma step_terminal ev r log sid s :
  consistent r log ->
  sessions r !! sid = Some s ->
  is_terminal (status s) = true ->
  exists s', sessions (fst (step ev r)) !! sid = Some s' /\ frozen s s'.
Proof.
  intros Hc Hs Ht.
  assert (Hkeep : exists s', sessions r !! sid = Some s' /\ frozen s s')
    by (exists s; now repeat split).
  pose proof (Hc sid) as Hsid. rewrite Hs in Hsid.
  destruct Hsid as (Hid & Hlt & _).
  destruct ev as [pid now cmd sh timeout|sid0 st code|sid0 chunk|sid0];
    cbn [step].
  - unfold create. destruct (String.eqb cmd ""); [exact Hkeep|].
    cbn [fst sessions]. rewrite lookup_insert_ne; [exact Hkeep|].
    intros <-. cbn in Hlt. lia.
  - unfold transition.
    pose proof (Hc sid0) as Hsid0.
    destruct (sessions r !! sid0) as [s0|] eqn:E0; [|exact Hkeep].
    destruct (reachable (status s0) st) eqn:Er; [|exact Hkeep].
    destruct Hsid0 as (Hid0 & _).
    cbn [fst set_session sessions id]. rewrite Hid0.
    destruct (decide (sid0 = sid)) as [->|Hne].
    + rewrite Hs in E0. injection E0 as <-.
      rewrite reachable_terminal in Er by exact Ht. discriminate.
    + rewrite lookup_insert_ne by exact Hne. exact Hkeep.
  - unfold appendOutput.
    pose proof (Hc sid0) as Hsid0.
    destruct (sessions r !! sid0) as [s0|] eqn:E0; [|exact Hkeep].
    destruct (is_terminal (status s0)) eqn:E; [exact Hkeep|].
    destruct Hsid0 as (Hid0 & _).
    cbn [fst set_session sessions id]. rewrite Hid0.
    destruct (decide (sid0 = sid)) as [->|Hne].
    + rewrite Hs in E0. injection E0 as <-. congruence.
    + rewrite lookup_insert_ne by exact Hne. exact Hkeep.
  - unfold read.
    pose proof (Hc sid0) as Hsid0.
    destruct (sessions r !! sid0) as [s0|] eqn:E0; [|exact Hkeep].
    destruct Hsid0 as (Hid0 & _).
    cbn [fst set_session sessions id]. rewrite Hid0.
    destruct (decide (sid0 = sid)) as [->|Hne].
    + rewrite Hs in E0. injection E0 as <-.
      rewrite lookup_insert_eq. eexists. split; [reflexivity|].
      now repeat split.
    + rewrite lookup_insert_ne by exact Hne. exact Hkeep.
Qed.

Lemma run_terminal evs r log sid s :
  consistent r log ->
  sessions r !! sid = Some s ->
  is_terminal (status s) = true ->
  exists s', sessions (fst (run evs r)) !! sid = Some s' /\ frozen s s'.
Proof.
  revert r log s. induction evs as [|ev evs IH]; intros r log s Hc Hs Ht; cbn [run].
  - exists s. now repeat split.
  - destruct (step_terminal ev r log sid s Hc Hs Ht) as (s1 & Hs1 & Hst & Hex & Hbuf).
    pose proof (step_consistent ev r log Hc) as Hc1.
    destruct (step ev r) as [r1 resp]. cbn [fst snd] in *.
    destruct (IH r1 _ s1 Hc1 Hs1) as (s2 & Hs2 & Hst2 & Hex2 & Hbuf2).
    { now rewrite Hst. }
    destruct (run evs r1) as [r2 log']. cbn [fst] in *.
    exists s2. split; [exact Hs2|]. unfold frozen. repeat split; congruence.
Qed.

(** C5: the status of a session moves forward only.  For a session [s]
    the registry holds after any calls [evs1]: if [s] is running, a
    transition to each of completed, failed, timedOut and terminated
    succeeds and sets the status, and a transition to running fails with
    InvalidTransition; if [s] is terminal, every transition fails with
    InvalidTransition, and after any further calls [evs2] the session
    still has the same status, exit code and output. *)
Theorem status_moves_forward_only (evs1 evs2 : list Event) (sid : SessionId)
    (s : Session) (newStatus : Status) (code : option Z) :
  sessions (fst (run evs1 empty)) !! sid = Some s ->
  if is_terminal (status s)
  then transition sid newStatus code (fst (run evs1 empty)) = Err InvalidTransition
       /\ exists s', sessions (fst (run evs2 (fst (run evs1 empty)))) !! sid = Some s'
                     /\ frozen s s'
  else if is_terminal newStatus
       then exists r' s',
              transition sid newStatus code (fst (run evs1 empty)) = Ok r'
              /\ sessions r' !! sid = Some s'
              /\ status s' = newStatus
              /\ exitCode s' = code
              /\ outputBuffer s' = outputBuffer s
       else transition sid newStatus code (fst (run evs1 empty)) = Err InvalidTransition.
Proof.
  intros Hs.
  pose proof (run_consistent evs1 empty [] empty_consistent) as Hc.
  set (r := fst (run evs1 empty)) in *.
  pose proof (Hc sid) as Hsid. rewrite Hs in Hsid. destruct Hsid as (Hid & _).
  destruct (is_terminal (status s)) eqn:Ht.
  - split.
    + unfold transition. rewrite Hs.
      now rewrite reachable_terminal by exact Ht.
    + eapply run_terminal; eassumption.
  - assert (Hrun : status s = running)
      by (revert Ht; destruct (status s); [reflexivity|discriminate..]).
    assert (Htr : reachable (status s) newStatus = is_terminal newStatus)
      by (rewrite Hrun; apply reachable_running).
    unfold transition. rewrite Hs, Htr.
    destruct (is_terminal newStatus); [|reflexivity].
    eexists _, _. split; [reflexivity|].
    unfold set_session. cbn [sessions id]. rewrite Hid, lookup_insert_eq.
    now repeat split.
Qed.

Lemma status_moves_forward_only_witness :
  transition (42, 0)%N terminated None
    (fst (run [Create 42 0 "echo hello" "/bin/sh" (Some 5000%N);
               AppendOutput (42, 0)%N [Byte.x68; Byte.x69];
               Transition (42, 0)%N completed (Some 0%Z)] empty))
  = Err InvalidTransition.
Proof.
  pose proof
    (status_moves_forward_only
       [Create 42 0 "echo hello" "/bin/sh" (Some 5000%N);
        AppendOutput (42, 0)%N [Byte.x68; Byte.x69];
        Transition (42, 0)%N completed (Some 0%Z)]
       [AppendOutput (42, 0)%N [Byte.x21]; Read (42, 0)%N]
       (42, 0)%N
       (mkSession (42, 0)%N "echo hello" "/bin/sh" 0 completed (Some 0%Z)
          [Byte.x68; Byte.x69] 0 (Some 5000%N))
       terminated None eq_refl) as H.
  cbn [is_terminal status] in H. exact (proj1 H).
Defined.

(** C6: reads deliver exactly what was written.  For a session [s] the
    registry holds after any interleaving [evs] of calls: its buffer is
    what the appends wrote; the chunks the reads returned so far
    concatenate to the buffer up to the read cursor; and the next read
    returns the buffer from the cursor to the end, moves the cursor on by
    the length returned, and completes the chunks to all that was
    written, with no gap and no repetition. *)
Theorem reads_concatenate_to_written (evs : list Event) (sid : SessionId)
    (s : Session) :
  sessions (fst (run evs empty)) !! sid = Some s ->
  outputBuffer s = written sid (snd (run evs empty))
  /\ delivered sid (snd (run evs empty)) = take (readCursor s) (outputBuffer s)
  /\ readCursor s <= length (outputBuffer s)
  /\ exists r' s',
       read sid (fst (run evs empty))
       = Ok (drop (readCursor s) (outputBuffer s), status s, r')
       /\ sessions r' !! sid = Some s'
       /\ outputBuffer s' = outputBuffer s
       /\ readCursor s'
          = readCursor s + length (drop (readCursor s) (outputBuffer s))
       /\ readCursor s' = length (outputBuffer s)
       /\ delivered sid (snd (run evs empty))
            ++ drop (readCursor s) (outputBuffer s)
          = written sid (snd (run evs empty)).
Proof.
  intros Hs.
  pose proof (run_consistent evs empty [] empty_consistent) as Hc.
  cbn [app] in Hc. specialize (Hc sid). rewrite Hs in Hc.
  destruct Hc as (Hid & Hlt & Hbuf & Hdel & Hcur).
  repeat split; try assumption.
  unfold read. rewrite Hs. eexists _, _. split; [reflexivity|].
  unfold set_session. cbn [sessions id]. rewrite Hid, lookup_insert_eq.
  split; [reflexivity|]. cbn [outputBuffer readCursor].
  repeat split.
  - rewrite length_drop. lia.
  - now rewrite Hdel, take_drop.
Qed.

Lemma reads_concatenate_to_written_witness :
  delivered (42, 0)%N
    (snd (run [Create 42 0 "echo hello" "/bin/sh" None;
               AppendOutput (42, 0)%N [Byte.x68; Byte.x65];
               Read (42, 0)%N;
               AppendOutput (42, 0)%N [Byte.x6c; Byte.x6c; Byte.x6f]] empty))
  = take 2 [Byte.x68; Byte.x65; Byte.x6c; Byte.x6c; Byte.x6f].
Proof.
  pose proof
    (reads_concatenate_to_written
       [Create 42 0 "echo hello" "/bin/sh" None;
        AppendOutput (42, 0)%N [Byte.x68; Byte.x65];
        Read (42, 0)%N;
        AppendOutput (42, 0)%N [Byte.x6c; Byte.x6c; Byte.x6f]]
       (42, 0)%N
       (mkSession (42, 0)%N "echo hello" "/bin/sh" 0 running None
          [Byte.x68; Byte.x65; Byte.x6c; Byte.x6c; Byte.x6f] 2 None)
       eq_refl) as H.
  exact (proj1 (proj2 H)).
Defined.

End RegistryFacts.

Module MoreContracts.
Import Zod Schemas Terms Shapes ZodFacts Contracts.

(** X1: the remaining string contracts.  Get config value accepts an
    object exactly when [key] is a string, search files when [path] and
    [pattern] are strings, edit block when [blockContent] is a string. *)
Theorem remaining_string_contracts (fields : gmap string value) :
  (validates GetConfigValueArgsSchema (VObject fields) = true
   <-> has_field string_typed fields "key")
  /\ (validates SearchFilesArgsSchema (VObject fields) = true
      <-> has_field string_typed fields "path"
          /\ has_field string_typed fields "pattern")
  /\ (validates EditBlockArgsSchema (VObject fields) = true
      <-> has_field string_typed fields "blockContent").
Proof.
  split; [apply one_string_contract|].
  split; [apply two_string_contract|apply one_string_contract].
Qed.

(** X2: update config accepts an object exactly when [config] is an
    object; what the object holds is not looked at. *)
Theorem update_config_contract (fields : gmap string value) :
  validates UpdateConfigArgsSchema (VObject fields) = true
  <-> has_field object_typed fields "config".
Proof.
  unfold UpdateConfigArgsSchema.
  rewrite validates_accepts, accepts_object. cbn [forallb fst snd].
  rewrite accepts_record_any, andb_true_r.
  rewrite (has_field_prop object_typed) by (intros [m [=]]).
  destruct (prop fields "config") as [| | | | | |m]; split;
    try discriminate; try (intros [m' [=]]); try reflexivity.
  intros _. now exists m.
Qed.

(** X3: no contract accepts anything but an object.  On [undefined],
    [null], a boolean, a number, a string or an array, every contract
    fails with one issue, at the root: an object was expected, and the
    type received is named. *)
Theorem contracts_reject_non_objects (i : nat) (S : ZodType) (v : value) :
  contracts !! i = Some S ->
  (forall fields, v <> VObject fields) ->
  safeParse S v = SafeParseError [invalid_type pt_object (getParsedType v) []].
Proof.
  intros Hi Hv.
  assert (HS : exists shape, S = z.object shape).
  { pose proof contracts_are_objects as Hall.
    rewrite Forall_forall in Hall. apply Hall.
    now apply list_elem_of_lookup_2 with i. }
  destruct HS as [shape ->].
  destruct v as [| | | | | |fields]; try reflexivity.
  now destruct (Hv fields).
Qed.

Lemma contracts_reject_non_objects_witness :
  safeParse KillProcessArgsSchema (VArray [VNumber (S754_finite false 7 0)])
  = SafeParseError [invalid_type pt_object pt_array []].
Proof.
  refine (contracts_reject_non_objects 8 KillProcessArgsSchema
            (VArray [VNumber (S754_finite false 7 0)]) eq_refl _).
  intros fields. discriminate.
Defined.

(** *** What a successful parse returns *)

Lemma transparent_leaf t :
  match t with ZodString | ZodNumber | ZodAny => True | _ => False end ->
  transparent t.
Proof.
  destruct t; intros []; intros path v out; cbn.
  - destruct (getParsedType v); cbn; congruence.
  - destruct (getParsedType v); cbn; congruence.
  - congruence.
Qed.

Lemma transparent_optional t : transparent t -> transparent (ZodOptional t).
Proof.
  intros Ht path v out. cbn [_parse].
  destruct v as [| | |x| | |]; try apply Ht.
  - cbn. congruence.
  - cbn [getParsedType]. destruct (isNaN x); apply Ht.
Qed.

Lemma mergeArray_strings (f : nat -> list PathSegment) elems acc out :
  mergeArray false
    (map fst (imap (fun i item => _parse ZodString (f i) item) elems)) acc
  = OK out ->
  out = VArray (acc ++ elems).
Proof.
  revert f acc. induction elems as [|e elems IH]; intros f acc.
  - cbn. rewrite app_nil_r. congruence.
  - cbn [imap map].
    destruct (fst (_parse ZodString (f 0%nat) e)) as [v|v|] eqn:E;
      cbn [mergeArray]; rewrite ?E.
    + assert (v = e) as -> by (now apply (transparent_leaf ZodString I (f 0%nat))).
      intros H. apply (IH (f ∘ S)) in H. now rewrite <- app_assoc in H.
    + destruct e as [| | |x| | |]; try discriminate E.
      cbn in E. destruct (isNaN x); discriminate E.
    + discriminate.
Qed.

Lemma transparent_array_string : transparent (ZodArray ZodString).
Proof.
  intros path v out. destruct v as [| | | | |elems|]; try discriminate.
  cbn [_parse fst]. intros H.
  now apply (mergeArray_strings (fun i => path ++ [Index i])) in H.
Qed.

Lemma plain_transparent t : plain t = true -> transparent t.
Proof.
  destruct t as [| | |t|t|t|]; try discriminate; intros H.
  - now apply transparent_leaf.
  - now apply transparent_leaf.
  - now apply transparent_leaf.
  - apply transparent_optional.
    destruct t; try discriminate; now apply transparent_leaf.
  - destruct t; try discriminate. apply transparent_array_string.
Qed.

Lemma mergeObjectSync_dirty pairs final out :
  mergeObjectSync true pairs final <> OK out.
Proof.
  intros H. pose proof (mergeObjectSync_is_ok true pairs final) as Hok.
  rewrite H in Hok. discriminate Hok.
Qed.

(** Writing a field that was parsed by a transparent validator. *)
Lemma set_pair_field final (fields : gmap string value) k :
  k <> "__proto__" ->
  set_pair final k (prop fields k) (has_key fields k)
  = match fields !! k with
    | Some v => <[k := v]> final
    | None => final
    end.
Proof.
  intros Hk. unfold set_pair, prop, has_key.
  assert (String.eqb k "__proto__" = false) as ->
    by (now apply String.eqb_neq).
  destruct (fields !! k) as [v|]; cbn.
  - now rewrite orb_true_r.
  - reflexivity.
Qed.

(** The object a strip-mode schema with transparent validators builds. *)
Lemma merge_plain_shape shape path (fields final : gmap string value) out :
  plain_shape shape = true ->
  mergeObjectSync false
    (map (fun r => mkPair (fst r) (fst (snd r)) (has_key fields (fst r)))
       (map (fun '(key, keyValidator) =>
               (key, _parse keyValidator (path ++ [Key key]) (prop fields key)))
            shape))
    final = OK out ->
  exists o, out = VObject o /\
    forall k, o !! k
              = if decide (k ∈ map fst shape)
                then match fields !! k with
                     | Some v => Some v
                     | None => final !! k
                     end
                else final !! k.
Proof.
  revert final. induction shape as [|[k0 t0] shape IH]; intros final Hp.
  - cbn. intros [= <-]. exists final. split; [reflexivity|].
    intros k. destruct (decide _) as [Hin|]; [|reflexivity].
    now apply elem_of_nil in Hin.
  - cbn [plain_shape forallb fst snd] in Hp.
    apply andb_true_iff in Hp as [Hp0 Hp].
    apply andb_true_iff in Hp0 as [Ht0 Hk0].
    apply negb_true_iff, String.eqb_neq in Hk0.
    cbn [map mergeObjectSync pair_value pair_key alwaysSet fst snd].
    destruct (fst (_parse t0 (path ++ [Key k0]) (prop fields k0)))
      as [v|v|] eqn:E.
    + apply (plain_transparent t0 Ht0) in E. subst v.
      rewrite set_pair_field by exact Hk0.
      intros H. apply IH in H as (o & -> & Ho); [|exact Hp].
      exists o. split; [reflexivity|]. intros k. rewrite Ho.
      cbn [map fst].
      destruct (decide (k ∈ map fst shape)) as [Hin|Hin].
      * rewrite decide_True by (now right).
        destruct (fields !! k) as [v|] eqn:Ek; [reflexivity|].
        destruct (decide (k = k0)) as [->|Hne].
        -- now rewrite Ek.
        -- destruct (fields !! k0); [|reflexivity].
           now rewrite lookup_insert_ne.
      * destruct (decide (k = k0)) as [->|Hne].
        -- rewrite decide_True by (now left).
           destruct (fields !! k0) as [v|]; [|reflexivity].
           now rewrite lookup_insert_eq.
        -- rewrite decide_False by (rewrite elem_of_cons; tauto).
           destruct (fields !! k0); [|reflexivity].
           now rewrite lookup_insert_ne.
    + intros H. now apply mergeObjectSync_dirty in H.
    + discriminate.
Qed.

Lemma safeParse_plain_shape shape (fields : gmap string value) out :
  plain_shape shape = true ->
  safeParse (z.object shape) (VObject fields) = SafeParseSuccess out ->
  out = VObject (filter (fun kv => fst kv ∈ map fst shape) fields).
Proof.
  intros Hp. unfold safeParse, z.object. cbn [_parse].
  destruct (mergeObjectSync _ _ _) as [v|v|] eqn:Hm; try discriminate.
  intros [= <-].
  apply merge_plain_shape in Hm as (o & -> & Ho); [|exact Hp].
  f_equal. apply map_eq. intros k. rewrite Ho, lookup_empty.
  destruct (decide (k ∈ map fst shape)) as [Hin|Hin].
  - destruct (fields !! k) as [v|] eqn:Ek.
    + symmetry. now apply map_lookup_filter_Some_2.
    + symmetry. apply map_lookup_filter_None_2. now left.
  - symmetry. apply map_lookup_filter_None_2. right. intros v _. exact Hin.
Qed.

(** The contracts but update config have plain shapes. *)
Lemma contracts_are_plain :
  Forall (fun S => S = UpdateConfigArgsSchema
                   \/ exists shape, S = z.object shape
                                    /\ plain_shape shape = true)
         contracts.
Proof.
  unfold contracts.
  repeat (apply List.Forall_cons;
          [first [ right; eexists; split; reflexivity | left; reflexivity ]|]).
  apply List.Forall_nil.
Qed.

(** X4: a contract returns what it was given, less the unknown keys.
    For every contract but update config, the result of a successful
    parse is the input object restricted to the declared keys: no value
    is changed, added or defaulted. *)
Theorem contracts_return_declared_fields (i : nat) (S : ZodType)
    (fields : gmap string value) (out : value) :
  contracts !! i = Some S ->
  S <> UpdateConfigArgsSchema ->
  safeParse S (VObject fields) = SafeParseSuccess out ->
  out = VObject (filter (fun kv => fst kv ∈ declared S) fields).
Proof.
  intros Hi Hne Hout.
  pose proof contracts_are_plain as Hall.
  rewrite Forall_forall in Hall.
  destruct (Hall S) as [->|(shape & -> & Hp)].
  - now apply list_elem_of_lookup_2 with i.
  - now destruct Hne.
  - now apply safeParse_plain_shape.
Qed.

Lemma contracts_return_declared_fields_witness :
  VObject (<["command" := VString "ls"]> {["shell" := VUndefined]})
  = VObject (filter (fun kv => fst kv ∈ declared ExecuteCommandArgsSchema)
               (<["command" := VString "ls"]>
                  (<["shell" := VUndefined]> {["cwd" := VString "/tmp"]}))).
Proof.
  refine (contracts_return_declared_fields 4 ExecuteCommandArgsSchema
            (<["command" := VString "ls"]>
               (<["shell" := VUndefined]> {["cwd" := VString "/tmp"]}))
            _ eq_refl _ _).
  - discriminate.
  - vm_compute. reflexivity.
Defined.

(** *** Parsing what was parsed *)

Lemma set_pair_record final k v :
  set_pair final k v true = record_step final (k, v).
Proof.
  unfold set_pair, record_step. cbn [fst snd].
  rewrite orb_true_r, andb_true_r. now destruct (String.eqb k "__proto__").
Qed.

Lemma merge_record (l : list (string * value)) final :
  mergeObjectSync false
    (map (fun r => mkPair (fst r) (fst (snd r)) true)
       (map (fun kv : string * value =>
               (fst kv, (OK (snd kv), @nil ZodIssue))) l))
    final
  = OK (VObject (foldl record_step final l)).
Proof.
  revert final. induction l as [|[k v] l IH]; intros final; [reflexivity|].
  cbn [map mergeObjectSync pair_value pair_key alwaysSet fst snd _parse foldl].
  now rewrite set_pair_record, IH.
Qed.

Lemma foldl_record_lookup (l : list (string * value)) final k :
  NoDup (l.*1) ->
  foldl record_step final l !! k
  = if decide (k = "__proto__") then final !! k
    else match (list_to_map l : gmap string value) !! k with
         | Some v => Some v
         | None => final !! k
         end.
Proof.
  revert final. induction l as [|[k0 v0] l IH]; intros final Hnd.
  - cbn. rewrite lookup_empty. now destruct (decide _).
  - apply NoDup_cons in Hnd as [Hk0 Hnd]. cbn [foldl].
    rewrite IH by exact Hnd. cbn [list_to_map foldr uncurry].
    unfold record_step at 1 2. cbn [fst snd].
    destruct (decide (k = "__proto__")) as [->|Hk].
    + destruct (String.eqb k0 "__proto__") eqn:E; [reflexivity|].
      apply String.eqb_neq in E. now rewrite lookup_insert_ne.
    + destruct (decide (k = k0)) as [->|Hne].
      * rewrite lookup_insert_eq.
        rewrite (not_elem_of_list_to_map_1 l k0 Hk0).
        apply String.eqb_neq in Hk. rewrite Hk.
        now rewrite lookup_insert_eq.
      * rewrite (lookup_insert_ne _ k0 k) by congruence.
        destruct (list_to_map l !! k); [reflexivity|].
        destruct (String.eqb k0 "__proto__"); [reflexivity|].
        now rewrite lookup_insert_ne by congruence.
Qed.

(** What [z.record(z.any())] returns on an object. *)
Lemma record_any_out path (m : gmap string value) :
  fst (_parse (z.record z.any) path (VObject m))
  = OK (VObject (filter (fun kv => fst kv <> "__proto__") m)).
Proof.
  cbn [z.record z.any _parse fst]. rewrite merge_record.
  f_equal. f_equal. apply map_eq. intros k.
  rewrite foldl_record_lookup by apply NoDup_fst_map_to_list.
  rewrite list_to_map_to_list, lookup_empty.
  destruct (decide (k = "__proto__")) as [->|Hk].
  - symmetry. apply map_lookup_filter_None_2. right. intros v _. cbn. tauto.
  - destruct (m !! k) as [v|] eqn:E.
    + symmetry. now apply map_lookup_filter_Some_2.
    + symmetry. apply map_lookup_filter_None_2. now left.
Qed.

Lemma safeParse_one_field k t (fields : gmap string value) :
  safeParse (z.object [(k, t)]) (VObject fields)
  = match fst (_parse t [Key k] (prop fields k)) with
    | OK v => SafeParseSuccess (VObject (set_pair ∅ k v (has_key fields k)))
    | _ => SafeParseError (snd (_parse t [Key k] (prop fields k)))
    end.
Proof.
  unfold safeParse, z.object.
  cbn [_parse map fst snd mergeObjectSync pair_value pair_key alwaysSet
       concat app].
  destruct (_parse t [Key k] (prop fields k)) as [[v|v|] issues];
    cbn [fst snd mergeObjectSync]; now rewrite ?app_nil_r.
Qed.

Lemma update_config_out (fields : gmap string value) out :
  safeParse UpdateConfigArgsSchema (VObject fields) = SafeParseSuccess out ->
  exists m, out = VObject {["config" :=
                    VObject (filter (fun kv => fst kv <> "__proto__") m)]}.
Proof.
  unfold UpdateConfigArgsSchema. rewrite safeParse_one_field.
  destruct (prop fields "config") as [| | | | | |m] eqn:E; try discriminate.
  pose proof (record_any_out [Key "config"] m) as R.
  destruct (_parse (z.record z.any) [Key "config"] (VObject m)) as [r iss].
  cbn [fst snd] in *. subst r. unfold has_key, prop in *.
  destruct (fields !! "config") as [w|]; [|discriminate E].
  intros [= <-]. exists m. reflexivity.
Qed.

Lemma update_config_again (m : gmap string value) :
  safeParse UpdateConfigArgsSchema
    (VObject {["config" := VObject (filter (fun kv => fst kv <> "__proto__") m)]})
  = SafeParseSuccess
      (VObject {["config" :=
         VObject (filter (fun kv => fst kv <> "__proto__") m)]}).
Proof.
  unfold UpdateConfigArgsSchema. rewrite safeParse_one_field.
  unfold prop, has_key. rewrite lookup_singleton_eq. cbn [default].
  pose proof (record_any_out [Key "config"]
                (filter (fun kv => fst kv <> "__proto__") m)) as R.
  destruct (_parse (z.record z.any) [Key "config"] _) as [r iss].
  cbn [fst snd] in *. subst r.
  rewrite map_filter_id; [reflexivity|].
  intros k v Hk. now apply map_lookup_filter_Some_1_2 in Hk.
Qed.

(** X5: a parsed request parses to itself.  For every contract, the
    result of a successful parse is accepted by the same contract and
    comes out unchanged. *)
Theorem contracts_parse_idempotent (i : nat) (S : ZodType) (v out : value) :
  contracts !! i = Some S ->
  safeParse S v = SafeParseSuccess out ->
  safeParse S out = SafeParseSuccess out.
Proof.
  intros Hi Hout.
  pose proof contracts_are_plain as Hall.
  rewrite Forall_forall in Hall.
  destruct (Hall S) as [->|(shape & -> & Hp)];
    [now apply list_elem_of_lookup_2 with i| |];
    (destruct v as [| | | | | |fields]; try discriminate Hout).
  - apply update_config_out in Hout as [m ->]. apply update_config_again.
  - pose proof (safeParse_plain_shape shape fields out Hp Hout) as ->.
    rewrite <- Hout. apply safeParse_object_agree.
    apply Forall_forall. intros k Hk.
    destruct (fields !! k) as [w|] eqn:E.
    + now apply map_lookup_filter_Some_2.
    + apply map_lookup_filter_None_2. now left.
Qed.

Lemma contracts_parse_idempotent_witness :
  safeParse UpdateConfigArgsSchema
    (VObject {["config" := VObject {["blockedCommands" := VArray []]}]})
  = SafeParseSuccess
      (VObject {["config" := VObject {["blockedCommands" := VArray []]}]}).
Proof.
  refine (contracts_parse_idempotent 3 UpdateConfigArgsSchema
            (VObject (<["config" :=
                          VObject (<["blockedCommands" := VArray []]>
                                     {["__proto__" := VNull]})]>
                        {["extra" := VBool true]}))
            _ eq_refl _).
  vm_compute. reflexivity.
Defined.

(** *** What a failed parse reports *)

Lemma simple_issue t k v :
  simple t = true ->
  snd (_parse t [Key k] v)
  = if accepts t [Key k] v then []
    else [invalid_type (expected_type t) (getParsedType v) [Key k]].
Proof.
  unfold accepts.
  destruct t as [| | |t|t|t|]; try discriminate.
  - intros _. destruct v as [| | |[| | |]| | |]; reflexivity.
  - intros _. destruct v as [| | |[| | |]| | |]; reflexivity.
  - reflexivity.
  - destruct t; try discriminate; intros _;
      destruct v as [| | |[| | |]| | |]; reflexivity.
  - destruct t; try discriminate. intros _.
    destruct v as [| | |[| | |]| | |m]; try reflexivity.
    cbn [_parse fst snd]. rewrite mergeObjectSync_is_ok.
    induction (map_to_list m) as [|kv l IH]; [reflexivity|].
    cbn. exact IH.
Qed.

Lemma simple_shape_issues shape (fields : gmap string value) :
  simple_shape shape = true ->
  snd (_parse (z.object shape) [] (VObject fields)) = offending shape fields.
Proof.
  unfold z.object. cbn [_parse snd]. intros Hs.
  induction shape as [|[k t] shape IH]; [reflexivity|].
  cbn [simple_shape forallb fst snd] in Hs.
  apply andb_true_iff in Hs as [Ht Hs].
  cbn [map concat offending flat_map fst snd app].
  rewrite (simple_issue t k _ Ht). f_equal. now apply IH.
Qed.

Lemma offending_nil shape (fields : gmap string value) :
  offending shape fields = [] ->
  validates (z.object shape) (VObject fields) = true.
Proof.
  rewrite validates_accepts, accepts_object. cbn [app].
  induction shape as [|[k t] shape IH]; [reflexivity|].
  cbn [offending flat_map forallb fst snd].
  destruct (accepts t [Key k] (prop fields k)); [|discriminate].
  exact IH.
Qed.

(** X6: a failed parse names every field it turns down.  For every
    contract but read multiple files, the issues of a failed parse of an
    object are one per declared field that is not accepted, in the order
    of declaration, each giving the field, the type expected and the
    type received; there is at least one. *)
Theorem contracts_report_offending_fields (i : nat) (S : ZodType)
    (fields : gmap string value) (issues : list ZodIssue) :
  contracts !! i = Some S ->
  simple_shape (shape_of S) = true ->
  safeParse S (VObject fields) = SafeParseError issues ->
  issues = offending (shape_of S) fields /\ issues <> [].
Proof.
  intros Hi Hs Herr.
  assert (HS : exists shape, S = z.object shape).
  { pose proof contracts_are_objects as Hall.
    rewrite Forall_forall in Hall. apply Hall.
    now apply list_elem_of_lookup_2 with i. }
  destruct HS as [shape ->]. cbn [shape_of z.object] in *.
  assert (Hi' : issues = offending shape fields).
  { rewrite <- (simple_shape_issues shape fields Hs).
    unfold safeParse in Herr.
    destruct (_parse (z.object shape) [] (VObject fields)) as [[w|w|] iss];
      cbn [snd]; congruence. }
  split; [exact Hi'|].
  intros Hnil. rewrite Hnil in Hi'. symmetry in Hi'.
  apply offending_nil in Hi'. unfold validates in Hi'.
  fold (z.object shape) in Herr. rewrite Herr in Hi'. discriminate.
Qed.

Lemma contracts_report_offending_fields_witness :
  [invalid_type pt_string pt_undefined [Key "path"];
   invalid_type pt_string pt_number [Key "content"]]
  = offending (shape_of WriteFileArgsSchema)
      {["content" := VNumber (S754_finite false 1 0)]}
  /\ [invalid_type pt_string pt_undefined [Key "path"];
      invalid_type pt_string pt_number [Key "content"]] <> [].
Proof.
  refine (contracts_report_offending_fields 13 WriteFileArgsSchema
            {["content" := VNumber (S754_finite false 1 0)]} _
            eq_refl eq_refl _).
  vm_compute. reflexivity.
Defined.

End MoreContracts.

Module SetupFacts.
Import Setup.

Example parse_mixed_arguments :
  parseSetupArgs ["node"; "setup-claude-server.js"; "setup"; "--mode=grouped";
                  "--verbose"; "--permission=root"; "--mode"; "--mode=";
                  "--permission=all=yes"; "--mode=unified"]
  = (mkSetupArgs (Some "unified") (Some "all")
       ["--mode=grouped"; "--permission=all=yes"; "--mode=unified"],
     [mkLog "Warning: Invalid --permission value 'root'. Ignoring." true;
      mkLog "Warning: Invalid --mode value ''. Ignoring." true]).
Proof. vm_compute. reflexivity. Qed.

(** *** [parseSetupArgs] *)

Lemma includes_some l value :
  includes l value = true -> exists v, value = Some v /\ v ∈ l.
Proof.
  destruct value as [v|]; [|discriminate]. cbn.
  intros H. apply bool_decide_eq_true_1 in H. eauto.
Qed.

(** One turn of the loop, variable by variable. *)
Lemma parse_arg_spec a lg arg :
  parse_arg (a, lg) arg
  = (mkSetupArgs (later (mode a) (mode_of arg))
       (later (permission a) (permission_of arg))
       (additionalArgs a ++ (if accepted arg then [arg] else [])),
     lg ++ option_list (warning_of arg)).
Proof.
  unfold parse_arg, accepted, mode_of, permission_of, warning_of.
  destruct a as [m p args].
  destruct (String.eqb arg "setup");
    [cbn; now rewrite !app_nil_r|].
  destruct (startsWith arg "--mode=").
  - destruct (includes modes _) eqn:E.
    + apply includes_some in E as (v & -> & _). cbn. now rewrite app_nil_r.
    + cbn. now rewrite app_nil_r.
  - destruct (startsWith arg "--permission=").
    + destruct (includes permissions _) eqn:E.
      * apply includes_some in E as (v & -> & _). cbn. now rewrite app_nil_r.
      * cbn. now rewrite app_nil_r.
    + cbn. now rewrite !app_nil_r.
Qed.

Lemma omap_cons {A B} (f : A -> option B) (x : A) (l : list A) :
  omap f (x :: l)
  = match f x with Some y => y :: omap f l | None => omap f l end.
Proof. reflexivity. Qed.

Lemma later_None x : later None x = x.
Proof. now destruct x. Qed.

(** The loop, from any state. *)
Lemma foldl_parse_arg l a lg :
  foldl parse_arg (a, lg) l
  = (mkSetupArgs (later (mode a) (last (omap mode_of l)))
       (later (permission a) (last (omap permission_of l)))
       (additionalArgs a ++ List.filter accepted l),
     lg ++ omap warning_of l).
Proof.
  revert a lg. induction l as [|arg l IH]; intros a lg.
  - destruct a. cbn. now rewrite !app_nil_r.
  - cbn [foldl]. rewrite parse_arg_spec, IH.
    cbn [mode permission additionalArgs List.filter omap].
    rewrite <- !app_assoc, !omap_cons. clear IH.
    f_equal; [f_equal|].
    + destruct (mode_of arg) as [v|]; cbn [later]; [|reflexivity].
      rewrite last_cons. destruct (last (omap mode_of l)); reflexivity.
    + destruct (permission_of arg) as [v|]; cbn [later]; [|reflexivity].
      rewrite last_cons. destruct (last (omap permission_of l)); reflexivity.
    + now destruct (accepted arg).
    + now destruct (warning_of arg).
Qed.

Lemma parseSetupArgs_spec argv :
  parseSetupArgs argv
  = (mkSetupArgs (last (omap mode_of (drop 2 argv)))
       (last (omap permission_of (drop 2 argv)))
       (List.filter accepted (drop 2 argv)),
     omap warning_of (drop 2 argv)).
Proof.
  unfold parseSetupArgs. rewrite foldl_parse_arg.
  cbn [mode permission additionalArgs app]. now rewrite !later_None.
Qed.

Lemma prefix_cons a p s :
  String.prefix (String a p) s = true ->
  exists s', s = String a s' /\ String.prefix p s' = true.
Proof.
  destruct s as [|b s]; [discriminate|]. cbn [String.prefix].
  destruct (Ascii.ascii_dec a b) as [->|]; [eauto|discriminate].
Qed.

Lemma mode_of_Some arg v :
  mode_of arg = Some v
  <-> startsWith arg "--mode=" = true
      /\ split "="%char arg !! 1%nat = Some v /\ v ∈ modes.
Proof.
  unfold mode_of. split.
  - destruct (String.eqb arg "setup"); [discriminate|].
    destruct (startsWith arg "--mode="); [|discriminate].
    destruct (includes modes _) eqn:E; [|discriminate].
    apply includes_some in E as (w & Hw & Hin). rewrite Hw.
    intros [= <-]. auto.
  - intros (Hp & Hv & Hin).
    destruct (String.eqb arg "setup") eqn:E.
    + apply String.eqb_eq in E. subst arg. discriminate Hp.
    + rewrite Hp, Hv. cbn. now rewrite bool_decide_eq_true_2.
Qed.

Lemma permission_of_Some arg v :
  permission_of arg = Some v
  <-> startsWith arg "--permission=" = true
      /\ split "="%char arg !! 1%nat = Some v /\ v ∈ permissions.
Proof.
  unfold permission_of. split.
  - destruct (String.eqb arg "setup"); [discriminate|].
    destruct (startsWith arg "--mode="); [discriminate|].
    destruct (startsWith arg "--permission="); [|discriminate].
    destruct (includes permissions _) eqn:E; [|discriminate].
    apply includes_some in E as (w & Hw & Hin). rewrite Hw.
    intros [= <-]. auto.
  - intros (Hp & Hv & Hin).
    destruct (String.eqb arg "setup") eqn:E.
    + apply String.eqb_eq in E. subst arg. discriminate Hp.
    + destruct (startsWith arg "--mode=") eqn:Hm.
      * unfold startsWith in *.
        apply prefix_cons in Hm as (s1 & -> & Hm).
        apply prefix_cons in Hp as (s1' & [= <-] & Hp).
        apply prefix_cons in Hm as (s2 & -> & Hm).
        apply prefix_cons in Hp as (s2' & [= <-] & Hp).
        apply prefix_cons in Hm as (s3 & -> & Hm).
        apply prefix_cons in Hp as (s3' & [=] & Hp).
      * rewrite Hp, Hv. cbn. now rewrite bool_decide_eq_true_2.
Qed.

Lemma accepted_true arg :
  accepted arg = true
  <-> (exists v, mode_of arg = Some v) \/ (exists v, permission_of arg = Some v).
Proof.
  unfold accepted.
  destruct (mode_of arg) as [m|], (permission_of arg) as [p|]; split;
    try reflexivity; eauto; try discriminate.
  intros [[v [=]]|[v [=]]].
Qed.

(** An argument is forwarded, or draws a warning, or is passed over. *)
Lemma accepted_warning_of arg :
  accepted arg = true -> warning_of arg = None.
Proof.
  unfold accepted, mode_of, permission_of, warning_of.
  destruct (String.eqb arg "setup"); [reflexivity|].
  destruct (startsWith arg "--mode=").
  - now destruct (includes modes _).
  - destruct (startsWith arg "--permission="); [|reflexivity].
    now destruct (includes permissions _).
Qed.

Lemma accepted_mode_of_filter l :
  omap mode_of (List.filter accepted l) = omap mode_of l.
Proof.
  induction l as [|arg l IH]; [reflexivity|]. cbn [List.filter].
  destruct (accepted arg) eqn:E.
  - now rewrite !omap_cons, IH.
  - rewrite omap_cons, IH. unfold accepted in E.
    now destruct (mode_of arg).
Qed.

Lemma accepted_permission_of_filter l :
  omap permission_of (List.filter accepted l) = omap permission_of l.
Proof.
  induction l as [|arg l IH]; [reflexivity|]. cbn [List.filter].
  destruct (accepted arg) eqn:E.
  - now rewrite !omap_cons, IH.
  - rewrite omap_cons, IH. unfold accepted in E.
    destruct (mode_of arg); [discriminate|]. now destruct (permission_of arg).
Qed.

Lemma accepted_filter_filter l :
  List.filter accepted (List.filter accepted l) = List.filter accepted l.
Proof.
  induction l as [|arg l IH]; [reflexivity|]. cbn [List.filter].
  destruct (accepted arg) eqn:E; [|exact IH].
  cbn [List.filter]. now rewrite E, IH.
Qed.

Lemma accepted_no_warnings l :
  omap warning_of (List.filter accepted l) = [].
Proof.
  induction l as [|arg l IH]; [reflexivity|]. cbn [List.filter].
  destruct (accepted arg) eqn:E; [|exact IH].
  now rewrite omap_cons, (accepted_warning_of _ E).
Qed.

(** X7: whatever the arguments, [parseSetupArgs] returns as mode [null]
    or one of granular, grouped, unified, and as permission [null] or one
    of execute, all, none. *)
Theorem parseSetupArgs_values_valid (argv : list string) :
  (mode (fst (parseSetupArgs argv)) = None
   \/ exists v, mode (fst (parseSetupArgs argv)) = Some v /\ v ∈ modes)
  /\ (permission (fst (parseSetupArgs argv)) = None
      \/ exists v, permission (fst (parseSetupArgs argv)) = Some v
                   /\ v ∈ permissions).
Proof.
  rewrite parseSetupArgs_spec. cbn [fst mode permission]. split.
  - destruct (last (omap mode_of (drop 2 argv))) as [v|] eqn:E; [|now left].
    right. exists v. split; [reflexivity|].
    apply last_Some_elem_of, list_elem_of_omap in E as (arg & _ & Harg).
    now apply mode_of_Some in Harg.
  - destruct (last (omap permission_of (drop 2 argv))) as [v|] eqn:E; [|now left].
    right. exists v. split; [reflexivity|].
    apply last_Some_elem_of, list_elem_of_omap in E as (arg & _ & Harg).
    now apply permission_of_Some in Harg.
Qed.

(** X8: the arguments [parseSetupArgs] forwards are, in their order and
    number, the arguments after the first two that start with [--mode=]
    or [--permission=] and carry a valid value between the first and the
    second [=]; nothing else is forwarded. *)
Theorem parseSetupArgs_forwards_valid_flags (argv : list string) :
  additionalArgs (fst (parseSetupArgs argv))
  = List.filter accepted (drop 2 argv)
  /\ forall arg,
       accepted arg = true
       <-> (startsWith arg "--mode=" = true
            /\ exists v, split "="%char arg !! 1%nat = Some v /\ v ∈ modes)
           \/ (startsWith arg "--permission=" = true
               /\ exists v, split "="%char arg !! 1%nat = Some v
                            /\ v ∈ permissions).
Proof.
  split; [now rewrite parseSetupArgs_spec|].
  intros arg. rewrite accepted_true. split.
  - intros [[v Hv]|[v Hv]].
    + left. apply mode_of_Some in Hv as (? & ? & ?). eauto.
    + right. apply permission_of_Some in Hv as (? & ? & ?). eauto.
  - intros [(Hp & v & Hv & Hin)|(Hp & v & Hv & Hin)].
    + left. exists v. now apply mode_of_Some.
    + right. exists v. now apply permission_of_Some.
Qed.

(** X9: [parseSetupArgs] logs one warning, flagged as an error, for each
    argument after the first two that starts with [--mode=] or
    [--permission=] and is not forwarded, in their order, and nothing
    else: a forwarded argument, [setup] and an argument with neither
    prefix draw none. *)
Theorem parseSetupArgs_warnings (argv : list string) :
  snd (parseSetupArgs argv) = omap warning_of (drop 2 argv)
  /\ forall arg,
       match warning_of arg with
       | Some w =>
           accepted arg = false /\ isError w = true
           /\ (startsWith arg "--mode=" = true
               \/ startsWith arg "--permission=" = true)
       | None =>
           accepted arg = true
           \/ (startsWith arg "--mode=" = false
               /\ startsWith arg "--permission=" = false)
       end.
Proof.
  split; [now rewrite parseSetupArgs_spec|].
  intros arg. unfold warning_of, accepted, mode_of, permission_of.
  destruct (String.eqb arg "setup") eqn:E.
  - apply String.eqb_eq in E. subst arg. right. now split.
  - destruct (startsWith arg "--mode=").
    + destruct (includes modes _) eqn:Ei.
      * apply includes_some in Ei as (v & -> & _). now left.
      * repeat split. now left.
    + destruct (startsWith arg "--permission=").
      * destruct (includes permissions _) eqn:Ei.
        -- apply includes_some in Ei as (v & -> & _). now left.
        -- repeat split. now right.
      * right. now split.
Qed.

Lemma modes_cases v :
  v ∈ modes -> v = "granular" \/ v = "grouped" \/ v = "unified".
Proof.
  unfold modes. rewrite !elem_of_cons, elem_of_nil. tauto.
Qed.

Lemma permissions_cases v :
  v ∈ permissions -> v = "execute" \/ v = "all" \/ v = "none".
Proof.
  unfold permissions. rewrite !elem_of_cons, elem_of_nil. tauto.
Qed.

Lemma mode_of_flag v :
  v ∈ modes -> mode_of (String.append "--mode=" v) = Some v.
Proof. intros H. destruct (modes_cases v H) as [->|[->| ->]]; reflexivity. Qed.

Lemma permission_of_flag v :
  v ∈ permissions -> permission_of (String.append "--permission=" v) = Some v.
Proof.
  intros H. destruct (permissions_cases v H) as [->|[->| ->]]; reflexivity.
Qed.

(** With a suffix [=rest] after a valid value, the value read is still
    the text between the first and the second [=]. *)
Lemma mode_of_flag_suffix v rest :
  v ∈ modes ->
  mode_of (String.append "--mode="
             (String.append v (String.append "=" rest))) = Some v.
Proof.
  intros H. destruct (modes_cases v H) as [->|[->| ->]];
    vm_compute; reflexivity.
Qed.

(** X10: the last valid flag decides.  After a [--mode=v] with [v] valid
    (and after a [--permission=p] with [p] valid) that no forwarded
    argument follows, the mode is [v] (the permission is [p]), whatever
    came before. *)
Theorem last_valid_flag_wins (x y v p : string) (pre rest : list string) :
  v ∈ modes ->
  p ∈ permissions ->
  (forall arg, arg ∈ rest -> accepted arg = false) ->
  mode (fst (parseSetupArgs
               (x :: y :: pre ++ String.append "--mode=" v :: rest))) = Some v
  /\ permission (fst (parseSetupArgs
               (x :: y :: pre ++ String.append "--permission=" p :: rest)))
     = Some p.
Proof.
  intros Hv Hp Hrest.
  assert (Hm : omap mode_of rest = []).
  { clear -Hrest. induction rest as [|arg rest IH]; [reflexivity|].
    rewrite omap_cons.
    assert (E : accepted arg = false) by (apply Hrest; left).
    unfold accepted in E. destruct (mode_of arg); [discriminate|].
    apply IH. intros a Ha. apply Hrest. now right. }
  assert (Hq : omap permission_of rest = []).
  { clear -Hrest. induction rest as [|arg rest IH]; [reflexivity|].
    rewrite omap_cons.
    assert (E : accepted arg = false) by (apply Hrest; left).
    unfold accepted in E.
    destruct (mode_of arg); [discriminate|].
    destruct (permission_of arg); [discriminate|].
    apply IH. intros a Ha. apply Hrest. now right. }
  rewrite !parseSetupArgs_spec. cbn [fst mode permission skipn]. rewrite !drop_0.
  rewrite !omap_app, !omap_cons, Hm, Hq.
  rewrite (mode_of_flag v Hv), (permission_of_flag p Hp).
  now rewrite !last_snoc.
Qed.

Lemma last_valid_flag_wins_witness :
  mode (fst (parseSetupArgs
               ("node" :: "setup.js" :: ["--mode=granular"]
                ++ String.append "--mode=" "unified" :: ["--verbose"])))
  = Some "unified"
  /\ permission (fst (parseSetupArgs
               ("node" :: "setup.js" :: ["--mode=granular"]
                ++ String.append "--permission=" "all" :: ["--verbose"])))
     = Some "all".
Proof.
  refine (last_valid_flag_wins "node" "setup.js" "unified" "all"
            ["--mode=granular"] ["--verbose"] _ _ _).
  - right. right. left.
  - right. left.
  - intros arg Harg. apply list_elem_of_singleton in Harg. subst arg.
    reflexivity.
Defined.

(** X11: parsing a list of arguments in two parts.  The flags of the
    second part override those of the first, the forwarded arguments and
    the warnings of the two parts are put one after the other. *)
Theorem parseSetupArgs_app (x y : string) (a b : list string) :
  parseSetupArgs (x :: y :: a ++ b)
  = (mkSetupArgs
       (later (mode (fst (parseSetupArgs (x :: y :: a))))
              (mode (fst (parseSetupArgs (x :: y :: b)))))
       (later (permission (fst (parseSetupArgs (x :: y :: a))))
              (permission (fst (parseSetupArgs (x :: y :: b)))))
       (additionalArgs (fst (parseSetupArgs (x :: y :: a)))
        ++ additionalArgs (fst (parseSetupArgs (x :: y :: b)))),
     snd (parseSetupArgs (x :: y :: a)) ++ snd (parseSetupArgs (x :: y :: b))).
Proof.
  rewrite !parseSetupArgs_spec.
  cbn [skipn fst snd mode permission additionalArgs]. rewrite ?drop_0.
  rewrite !omap_app, !last_app, List.filter_app.
  reflexivity.
Qed.

(** X12: only the text between the first and the second [=] is checked.
    A mode flag with a valid value and any suffix [=rest] is accepted:
    the mode is the valid value, and the argument is forwarded with its
    suffix, without a warning. *)
Theorem mode_flag_with_suffix (x y v rest : string) :
  v ∈ modes ->
  parseSetupArgs
    [x; y; String.append "--mode=" (String.append v (String.append "=" rest))]
  = (mkSetupArgs (Some v) None
       [String.append "--mode=" (String.append v (String.append "=" rest))],
     []).
Proof.
  intros Hv. rewrite parseSetupArgs_spec. cbn [skipn]. rewrite ?drop_0.
  pose proof (mode_of_flag_suffix v rest Hv) as Hm.
  assert (Ha : accepted (String.append "--mode="
                 (String.append v (String.append "=" rest))) = true).
  { apply accepted_true. left. eauto. }
  rewrite !omap_cons, Hm. cbn [List.filter]. rewrite Ha.
  rewrite (accepted_warning_of _ Ha).
  assert (Hp : permission_of (String.append "--mode="
                 (String.append v (String.append "=" rest))) = None).
  { destruct (modes_cases v Hv) as [->|[->| ->]]; vm_compute; reflexivity. }
  now rewrite Hp.
Qed.

Lemma mode_flag_with_suffix_witness :
  parseSetupArgs
    ["node"; "setup.js";
     String.append "--mode="
       (String.append "granular" (String.append "=" "x --permission=none"))]
  = (mkSetupArgs (Some "granular") None
       [String.append "--mode="
          (String.append "granular" (String.append "=" "x --permission=none"))],
     []).
Proof.
  refine (mode_flag_with_suffix "node" "setup.js" "granular"
            "x --permission=none" _).
  left.
Defined.

(** X13: parsing what was forwarded gives the same result again.  The
    forwarded arguments, put after any two leading arguments, parse to
    the same mode, permission and forwarded arguments, with no warning. *)
Theorem parseSetupArgs_forwarded_again (x y : string) (argv : list string) :
  parseSetupArgs (x :: y :: additionalArgs (fst (parseSetupArgs argv)))
  = (fst (parseSetupArgs argv), []).
Proof.
  rewrite !parseSetupArgs_spec. cbn [fst additionalArgs skipn]. rewrite ?drop_0.
  now rewrite accepted_mode_of_filter, accepted_permission_of_filter,
    accepted_filter_filter, accepted_no_warnings.
Qed.

(** *** [updateConfig] *)

(** Case analysis on a value, down to what [truthy] looks at. *)
Ltac value_cases v :=
  destruct v as [| |[]|[| | |]|[|]| |].

Lemma falsy_servers_of v : truthy v = false -> servers_of v = ∅.
Proof. value_cases v; try reflexivity; discriminate. Qed.

(** The update of an object whose [mcpServers] is falsy or an object. *)
Lemma updateConfig_object sc (m : gmap string value) :
  registers (prop m "mcpServers") = true ->
  updateConfig sc (VObject m)
  = ((if truthy (prop (servers_of (prop m "mcpServers")) "desktopCommander")
      then [found_old] else []),
     Normal (VObject
       (<["mcpServers" :=
            VObject (<["desktop-commander" := sc]>
              (if truthy (prop (servers_of (prop m "mcpServers"))
                            "desktopCommander")
               then delete "desktopCommander" (servers_of (prop m "mcpServers"))
               else servers_of (prop m "mcpServers")))]> m))).
Proof.
  unfold registers, updateConfig. cbn [getProp]. intros Hreg.
  destruct (truthy (prop m "mcpServers")) eqn:Ht; cbn [negb orb] in Hreg.
  - destruct (prop m "mcpServers") as [| | | | | |s]; try discriminate Hreg.
    cbn [getProp servers_of].
    destruct (truthy (prop s "desktopCommander")); reflexivity.
  - rewrite (falsy_servers_of _ Ht).
    cbn [setProp getProp]. unfold prop at 1 2 3. rewrite lookup_empty.
    cbn [default truthy setProp alias]. now rewrite insert_insert_eq.
Qed.

(** The update when an array stands where an object is expected. *)
Lemma updateConfig_array sc config :
  match config with
  | VArray _ => True
  | VObject m => exists elems, prop m "mcpServers" = VArray elems
  | _ => False
  end ->
  updateConfig sc config = ([], Normal config).
Proof.
  destruct config as [| | | | |elems|m]; intros H; try (destruct H; fail).
  - reflexivity.
  - destruct H as [elems He]. unfold updateConfig. cbn [getProp]. rewrite He.
    cbn. f_equal. f_equal. f_equal. apply insert_id.
    unfold prop in He. destruct (m !! "mcpServers") as [v|]; [|discriminate].
    cbn in He. now subst v.
Qed.

(** What is under [desktopCommander] after the update of the servers. *)
Lemma old_entry_after (s : gmap string value) sc :
  truthy
    (prop (<["desktop-commander" := sc]>
             (if truthy (prop s "desktopCommander")
              then delete "desktopCommander" s else s))
          "desktopCommander") = false.
Proof.
  unfold prop at 1. rewrite lookup_insert_ne by done.
  destruct (truthy (prop s "desktopCommander")) eqn:E.
  - now rewrite lookup_delete_eq.
  - exact E.
Qed.

(** The update of a configuration whose [mcpServers] is the object [s]. *)
Lemma updateConfig_servers sc (m s : gmap string value) :
  updateConfig sc (VObject (<["mcpServers" := VObject s]> m))
  = ((if truthy (prop s "desktopCommander") then [found_old] else []),
     Normal (VObject
       (<["mcpServers" :=
            VObject (<["desktop-commander" := sc]>
              (if truthy (prop s "desktopCommander")
               then delete "desktopCommander" s else s))]> m))).
Proof.
  assert (Hp : prop (<["mcpServers" := VObject s]> m) "mcpServers" = VObject s).
  { unfold prop. now rewrite lookup_insert_eq. }
  rewrite updateConfig_object by (now rewrite Hp).
  rewrite Hp. cbn [servers_of]. now rewrite insert_insert_eq.
Qed.

(** X14: the update throws exactly when the configuration is not an
    object or an array, or when it is an object whose [mcpServers] is a
    truthy primitive ([true], a number other than 0 and NaN, a string
    that is not empty); the error is a TypeError and nothing was logged
    before it. *)
Theorem updateConfig_throws (sc config : value) :
  if updatable config
  then exists lg config', updateConfig sc config = (lg, Normal config')
  else updateConfig sc config = ([], Throw TypeError).
Proof.
  destruct config as [| |b|x|s|elems|m]; try reflexivity.
  - cbn [updatable]. eexists _, _. now apply updateConfig_array.
  - unfold updatable.
    destruct (registers (prop m "mcpServers")) eqn:Hr.
    + rewrite (updateConfig_object sc m Hr).
      unfold registers in Hr.
      destruct (truthy (prop m "mcpServers")); cbn [negb orb] in *;
        [|eexists _, _; reflexivity].
      destruct (prop m "mcpServers"); try discriminate Hr.
      eexists _, _; reflexivity.
    + unfold registers in Hr. unfold updateConfig. cbn [getProp].
      destruct (prop m "mcpServers") as [| |[]|[| | |]|[|]|elems|s];
        try discriminate Hr; try reflexivity.
      cbn. eexists _, _. reflexivity.
Qed.

(** X15: when the configuration is an object whose [mcpServers] is
    falsy or an object, the update succeeds: [mcpServers] is then an
    object holding the server under [desktop-commander], every other key
    of the configuration is as before, and so is every other server but
    [desktopCommander]. *)
Theorem updateConfig_registers (sc : value) (m : gmap string value) :
  registers (prop m "mcpServers") = true ->
  exists lg m' s',
    updateConfig sc (VObject m) = (lg, Normal (VObject m'))
    /\ m' !! "mcpServers" = Some (VObject s')
    /\ s' !! "desktop-commander" = Some sc
    /\ (forall k, k <> "mcpServers" -> m' !! k = m !! k)
    /\ (forall k, k <> "desktop-commander" -> k <> "desktopCommander" ->
          s' !! k = servers_of (prop m "mcpServers") !! k).
Proof.
  intros Hr. rewrite (updateConfig_object sc m Hr).
  eexists _, _, _. split; [reflexivity|].
  split; [apply lookup_insert_eq|].
  split; [apply lookup_insert_eq|].
  split.
  - intros k Hk. now rewrite lookup_insert_ne.
  - intros k Hk1 Hk2. rewrite lookup_insert_ne by done.
    destruct (truthy _); [|reflexivity].
    now rewrite lookup_delete_ne.
Qed.

Lemma updateConfig_registers_witness :
  exists lg m' s',
    updateConfig (VString "server") (defaultConfig false)
    = (lg, Normal (VObject m'))
    /\ m' !! "mcpServers" = Some (VObject s')
    /\ s' !! "desktop-commander" = Some (VString "server")
    /\ (forall k, k <> "mcpServers" ->
          m' !! k
          = ({["serverConfig" :=
                VObject (<["command" := VString "/bin/sh"]>
                           {["args" := VArray [VString "-c"]]})]}
             : gmap string value) !! k)
    /\ (forall k, k <> "desktop-commander" -> k <> "desktopCommander" ->
          s' !! k = (∅ : gmap string value) !! k).
Proof.
  exact (updateConfig_registers (VString "server")
           {["serverConfig" :=
              VObject (<["command" := VString "/bin/sh"]>
                         {["args" := VArray [VString "-c"]]})]}
           eq_refl).
Defined.

(** X16: the old [desktopCommander] entry is removed, and its removal
    logged, only when its value is truthy.  An entry that holds [null],
    [false], [0] or the empty string stays in the file, and nothing is
    logged about it. *)
Theorem updateConfig_old_entry (sc : value) (m : gmap string value) :
  registers (prop m "mcpServers") = true ->
  exists m' s',
    updateConfig sc (VObject m)
    = ((if truthy (prop (servers_of (prop m "mcpServers")) "desktopCommander")
        then [found_old] else []),
       Normal (VObject m'))
    /\ m' !! "mcpServers" = Some (VObject s')
    /\ s' !! "desktopCommander"
       = if truthy (prop (servers_of (prop m "mcpServers")) "desktopCommander")
         then None
         else servers_of (prop m "mcpServers") !! "desktopCommander".
Proof.
  intros Hr. rewrite (updateConfig_object sc m Hr).
  eexists _, _. split; [reflexivity|].
  split; [apply lookup_insert_eq|].
  rewrite lookup_insert_ne by done.
  destruct (truthy _); [apply lookup_delete_eq|reflexivity].
Qed.

Lemma updateConfig_old_entry_witness :
  exists m' s',
    updateConfig (VString "server")
      (VObject {["mcpServers" := VObject {["desktopCommander" := VNull]}]})
    = ([], Normal (VObject m'))
    /\ m' !! "mcpServers" = Some (VObject s')
    /\ s' !! "desktopCommander" = Some VNull.
Proof.
  exact (updateConfig_old_entry (VString "server")
           {["mcpServers" := VObject {["desktopCommander" := VNull]}]}
           eq_refl).
Defined.

(** X17: updating twice is updating once.  When the update succeeds, a
    second update with the same server leaves the configuration as the
    first one made it, and logs nothing. *)
Theorem updateConfig_idempotent (sc config config' : value)
    (lg : list LogEntry) :
  updateConfig sc config = (lg, Normal config') ->
  updateConfig sc config' = ([], Normal config').
Proof.
  intros H.
  destruct config as [| |b|x|s|elems|m]; try discriminate H.
  - rewrite updateConfig_array in H by exact I.
    injection H as <- <-. now apply updateConfig_array.
  - destruct (registers (prop m "mcpServers")) eqn:Hr.
    + rewrite (updateConfig_object sc m Hr) in H. injection H as <- <-.
      rewrite updateConfig_servers, old_entry_after.
      now rewrite !insert_insert_eq.
    + unfold registers in Hr.
      destruct (prop m "mcpServers") as [| |[]|[| | |]|[|]|elems|s] eqn:Hv;
        try discriminate Hr;
        try (unfold updateConfig in H; cbn [getProp] in H; rewrite Hv in H;
             discriminate H).
      assert (Ha : updateConfig sc (VObject m) = ([], Normal (VObject m)))
        by (apply updateConfig_array; eauto).
      rewrite Ha in H. injection H as <- <-. exact Ha.
Qed.

Lemma updateConfig_idempotent_witness :
  updateConfig (VString "server")
    (VObject {["mcpServers" :=
       VObject {["desktop-commander" := VString "server"]}]})
  = ([], Normal (VObject {["mcpServers" :=
       VObject {["desktop-commander" := VString "server"]}]})).
Proof.
  exact (updateConfig_idempotent (VString "server")
           (VObject {["mcpServers" := VObject {["desktopCommander" := VBool true]}]})
           (VObject {["mcpServers" :=
              VObject {["desktop-commander" := VString "server"]}]})
           [found_old] eq_refl).
Defined.

(** X19: the last update decides.  After a successful update with one
    server, an update with another gives the configuration that the
    second update alone gives. *)
Theorem updateConfig_overwrites (sc1 sc2 config config1 : value)
    (lg : list LogEntry) :
  updateConfig sc1 config = (lg, Normal config1) ->
  snd (updateConfig sc2 config1) = snd (updateConfig sc2 config).
Proof.
  intros H.
  destruct config as [| |b|x|s|elems|m]; try discriminate H.
  - rewrite updateConfig_array in H by exact I. now injection H as <- <-.
  - destruct (registers (prop m "mcpServers")) eqn:Hr.
    + rewrite (updateConfig_object sc1 m Hr) in H. injection H as <- <-.
      rewrite (updateConfig_object sc2 m Hr).
      rewrite updateConfig_servers, old_entry_after. cbn [snd].
      now rewrite !insert_insert_eq.
    + unfold registers in Hr.
      destruct (prop m "mcpServers") as [| |[]|[| | |]|[|]|elems|s] eqn:Hv;
        try discriminate Hr;
        try (unfold updateConfig in H; cbn [getProp] in H; rewrite Hv in H;
             discriminate H).
      assert (Ha : updateConfig sc1 (VObject m) = ([], Normal (VObject m)))
        by (apply updateConfig_array; eauto).
      rewrite Ha in H. now injection H as <- <-.
Qed.

Lemma updateConfig_overwrites_witness :
  snd (updateConfig (VString "new")
         (VObject {["mcpServers" :=
            VObject {["desktop-commander" := VString "old"]}]}))
  = snd (updateConfig (VString "new") (VObject ∅)).
Proof.
  exact (updateConfig_overwrites (VString "old") (VString "new")
           (VObject ∅)
           (VObject {["mcpServers" :=
              VObject {["desktop-commander" := VString "old"]}]})
           [] eq_refl).
Defined.

Example fresh_install :
  main show ["node"; "setup-claude-server.js"; "setup"; "--mode=grouped"]
    "file:///opt/dc/setup-claude-server.js" "/opt/dc/dist/index.js"
    "/home/u/claude_desktop_config.json"
    (Normal (defaultConfig false)) None
  = mkOutcome
      [mkLog "Successfully added MCP server to Claude configuration!" false;
       mkLog "Configuration location: /home/u/claude_desktop_config.json" false;
       mkLog "Server configured with mode=grouped" false;
       mkLog usage false]
      (Some (VObject
         (<["mcpServers" := VObject {["desktop-commander" :=
              VObject (<["command" := VString "node"]>
                {["args" := VArray [VString "/opt/dc/dist/index.js";
                                    VString "--mode=grouped"]]})]}]>
            {["serverConfig" :=
               VObject (<["command" := VString "/bin/sh"]>
                          {["args" := VArray [VString "-c"]]})]})))
      None.
Proof. vm_compute. reflexivity. Qed.

Example null_config :
  main show ["node"; "x"] "file:///x/dist/setup-claude-server.js" "e" "p"
    (Normal VNull) None
  = mkOutcome [mkLog "Error updating Claude configuration: TypeError" true]
      None (Some 1%nat).
Proof. vm_compute. reflexivity. Qed.

(** *** The script as a whole *)

Lemma serialised_object (m : gmap string value) k v :
  m !! k = Some v ->
  match serialised (VObject m) with
  | VObject m' =>
      m' !! k = match serialised v with
                | VUndefined => None
                | v' => Some v'
                end
  | _ => False
  end.
Proof. intros H. cbn [serialised]. now rewrite lookup_omap, H. Qed.

Lemma serialised_strings (l : list string) :
  serialised (VArray (map VString l)) = VArray (map VString l).
Proof.
  cbn [serialised]. f_equal. rewrite map_map.
  induction l as [|a l IH]; [reflexivity|]. cbn [map]. now rewrite IH.
Qed.

Lemma serialised_serverConfig url localEntry args :
  serialised (serverConfig url localEntry args)
  = serverConfig url localEntry args.
Proof.
  unfold serverConfig.
  pose proof (serialised_strings (serverArgs url localEntry args)) as Hs.
  cbn [serialised] in *. f_equal. apply map_eq. intros k.
  rewrite lookup_omap.
  destruct (decide (k = "command")) as [->|Hc].
  - now rewrite lookup_insert_eq.
  - rewrite lookup_insert_ne by done.
    destruct (decide (k = "args")) as [->|Ha].
    + rewrite lookup_singleton_eq. cbn [option_bind mbind].
      cbn [serialised]. now rewrite Hs.
    + now rewrite lookup_singleton_ne.
Qed.

(** X18: an array where an object is expected swallows the server.  When
    the configuration read is an array, or an object whose [mcpServers]
    is an array, and the write succeeds, the script reports success and
    exits normally, and what the file then holds is the configuration
    read as [JSON.stringify] writes it, with the array still in place:
    the server is not in it. *)
Theorem main_array_unchanged (describe : JsError -> string)
    (argv : list string) (url localEntry claudeConfigPath : string)
    (config : value) :
  match config with
  | VArray _ => True
  | VObject m => exists elems, prop m "mcpServers" = VArray elems
  | _ => False
  end ->
  written (main describe argv url localEntry claudeConfigPath
             (Normal config) None) = Some (serialised config)
  /\ match serialised config with
     | VArray _ => True
     | VObject m => exists elems, prop m "mcpServers" = VArray elems
     | _ => False
     end
  /\ exitCode (main describe argv url localEntry claudeConfigPath
                 (Normal config) None) = None
  /\ success ∈ log (main describe argv url localEntry claudeConfigPath
                      (Normal config) None).
Proof.
  intros H. unfold main.
  destruct (parseSetupArgs argv) as [args log0].
  rewrite (updateConfig_array _ config H). cbn [written exitCode log].
  split; [reflexivity|]. split.
  - destruct config as [| | | | |elems|m]; try (destruct H; fail).
    + exact I.
    + destruct H as [elems He]. unfold prop in He.
      destruct (m !! "mcpServers") as [w|] eqn:E; [|discriminate He].
      simpl in He. subst w.
      pose proof (serialised_object m _ _ E) as Hm.
      cbn [serialised] in *. unfold prop. rewrite Hm. eexists. reflexivity.
  - split; [reflexivity|].
    rewrite ?elem_of_app, ?elem_of_cons. intuition auto.
Qed.

Lemma main_array_unchanged_witness :
  written (main show ["node"; "setup.js"] "file:///x/setup.js" "/x/dist/index.js"
             "/c.json"
             (Normal (VArray [VNumber (S754_infinity false);
                              VNumber (S754_zero true)])) None)
  = Some (serialised (VArray [VNumber (S754_infinity false);
                              VNumber (S754_zero true)])).
Proof.
  refine (proj1 (main_array_unchanged show ["node"; "setup.js"]
           "file:///x/setup.js" "/x/dist/index.js" "/c.json"
           (VArray [VNumber (S754_infinity false); VNumber (S754_zero true)])
           _)).
  exact I.
Defined.

(** X20: how a run ends.  The log starts with the warnings of
    [parseSetupArgs].  Either the file is written and holds the updated
    configuration as [JSON.stringify] writes it, the script exits
    normally, has logged the success message and ends its log with the
    usage note; or nothing is written, the script exits with code 1, and
    the last entry of its log is the error, flagged as one. *)
Theorem main_outcome (describe : JsError -> string) (argv : list string)
    (url localEntry claudeConfigPath : string)
    (configData : Completion value) (writeError : option JsError) :
  (exists rest,
     log (main describe argv url localEntry claudeConfigPath configData writeError)
     = snd (parseSetupArgs argv) ++ rest)
  /\ match written (main describe argv url localEntry claudeConfigPath
                      configData writeError) with
     | Some held =>
         exitCode (main describe argv url localEntry claudeConfigPath
                     configData writeError) = None
         /\ writeError = None
         /\ (exists config config',
               configData = Normal config
               /\ snd (updateConfig
                         (serverConfig url localEntry (fst (parseSetupArgs argv)))
                         config) = Normal config'
               /\ held = serialised config')
         /\ success ∈ log (main describe argv url localEntry claudeConfigPath
                             configData writeError)
         /\ last (log (main describe argv url localEntry claudeConfigPath
                         configData writeError)) = Some (mkLog usage false)
     | None =>
         exitCode (main describe argv url localEntry claudeConfigPath
                     configData writeError) = Some 1%nat
         /\ exists e,
              last (log (main describe argv url localEntry claudeConfigPath
                           configData writeError))
              = Some (error_entry describe e)
     end.
Proof.
  unfold main.
  destruct (parseSetupArgs argv) as [args log0]. cbn [fst snd].
  destruct configData as [config|e].
  - destruct (updateConfig (serverConfig url localEntry args) config)
      as [log1 [config'|e]] eqn:Hu.
    + destruct writeError as [e|].
      * unfold failure. cbn [log written exitCode]. split.
        -- eexists. now rewrite <- app_assoc.
        -- split; [reflexivity|]. exists e. apply last_snoc.
      * cbn [log written exitCode]. split; [eauto|].
        repeat split.
        -- exists config, config'. now rewrite Hu.
        -- rewrite ?elem_of_app, ?elem_of_cons. intuition auto.
        -- rewrite !app_assoc. apply last_snoc.
    + unfold failure. cbn [log written exitCode]. split.
      * eexists. now rewrite <- app_assoc.
      * split; [reflexivity|]. exists e. apply last_snoc.
  - unfold failure. cbn [log written exitCode]. split; [eauto|].
    split; [reflexivity|]. exists e. apply last_snoc.
Qed.

(** X21: what ends up in the file.  When the configuration read is an
    object whose [mcpServers] is falsy or an object and the write
    succeeds, the entry written under [desktop-commander] has as command
    npx or node and as arguments the package name or the local entry
    point, followed by exactly the valid flags of the command line, in
    their order. *)
Theorem main_stores_valid_flags (describe : JsError -> string)
    (argv : list string) (url localEntry claudeConfigPath : string)
    (m : gmap string value) :
  registers (prop m "mcpServers") = true ->
  exists m' s',
    written (main describe argv url localEntry claudeConfigPath
               (Normal (VObject m)) None) = Some (VObject m')
    /\ m' !! "mcpServers" = Some (VObject s')
    /\ s' !! "desktop-commander"
       = Some (VObject
           (<["command" := VString (if isNpx url then "npx" else "node")]>
              {["args" :=
                 VArray (map VString
                   ((if isNpx url then npxPackage else localEntry)
                    :: List.filter accepted (drop 2 argv)))]})).
Proof.
  intros Hr. unfold main. rewrite parseSetupArgs_spec.
  rewrite (updateConfig_object _ m Hr). cbn [written].
  set (args := mkSetupArgs _ _ _).
  set (s := <["desktop-commander" := serverConfig url localEntry args]> _).
  set (m1 := <["mcpServers" := VObject s]> m).
  assert (Hm1 : m1 !! "mcpServers" = Some (VObject s))
    by apply lookup_insert_eq.
  assert (Hs : s !! "desktop-commander"
               = Some (serverConfig url localEntry args))
    by apply lookup_insert_eq.
  pose proof (serialised_object m1 _ _ Hm1) as H1.
  pose proof (serialised_object s _ _ Hs) as H2.
  rewrite serialised_serverConfig in H2.
  destruct (serialised (VObject m1)) as [| | | | | |m'] eqn:E1; try (destruct H1; fail).
  destruct (serialised (VObject s)) as [| | | | | |s'] eqn:E2; try (destruct H2; fail).
  exists m', s'. split; [reflexivity|]. split; [exact H1|].
  rewrite H2. unfold serverConfig, serverArgs. subst args.
  cbn [additionalArgs]. now destruct (isNpx url).
Qed.

Lemma main_stores_valid_flags_witness :
  exists m' s',
    written (main show
               ["node"; "setup.js"; "--mode=grouped"; "--force"; "--permission=all"]
               "file:///pkg/dist/setup-claude-server.js" "/pkg/dist/index.js"
               "/c.json" (Normal (VObject ∅)) None) = Some (VObject m')
    /\ m' !! "mcpServers" = Some (VObject s')
    /\ s' !! "desktop-commander"
       = Some (VObject
           (<["command" := VString "npx"]>
              {["args" :=
                 VArray [VString "@wonderwhy-er/desktop-commander";
                         VString "--mode=grouped"; VString "--permission=all"]]})).
Proof.
  exact (main_stores_valid_flags show
           ["node"; "setup.js"; "--mode=grouped"; "--force"; "--permission=all"]
           "file:///pkg/dist/setup-claude-server.js" "/pkg/dist/index.js"
           "/c.json" ∅ eq_refl).
Defined.

End SetupFacts.
